(** * ObjectTracker: the association engine and the contour pipeline

    A shallow embedding of [src/src/multi_object_tracker.cpp]
    ([MultiObjectTracker::update]) and of [src/src/contour_finder.cpp]
    ([filterOutBadContours], [mergeContours], [getCentersAndBoundingBoxes],
    and the tail of [findContours]).

    Conventions.
    - [float]/[double] values are idealised as exact rationals ([Q]);
      counters, sizes and indices ([int]/[long]/[size_t]) are [Z] or [nat]
      without wrap-around. Where the code converts a [double] or [float]
      to [int], the conversion is [to_int], which keeps the range of
      [int]; where it converts a [cv::Point2f] to a [cv::Point], the
      conversion is [Point_of_Point2f].
    - A [std::vector] is a [list]; indexing is stdpp's [!!], in-place
      assignment is [<[i:=x]>] or [alter], [erase(begin()+i)] is [delete i].
    - OpenCV and the headers that are not part of the sources at hand
      ([kalman_tracker.hpp], [hungarian.hpp], [disjoint_set.hpp]) enter as
      interfaces (type classes and records); every theorem holds for all
      their implementations, and concrete instances are given so that the
      model runs. *)

From Stdlib Require Import ZArith QArith Qround Qabs Relations Lia.
From stdpp Require Import base list gmap.

Open Scope Z_scope.

(** ** Geometry *)

Record Point2f := mkPoint2f { pt_x : Q; pt_y : Q }.
(** [cv::Point], with [int] coordinates. *)
Record Point := mkPoint { point_x : Z; point_y : Z }.
Record Rect := mkRect { rect_x : Z; rect_y : Z; rect_width : Z; rect_height : Z }.
Record Size := mkSize { size_width : Z; size_height : Z }.

(** [a - b] on [cv::Point2f]. *)
Definition Point2f_sub (a b : Point2f) : Point2f :=
  mkPoint2f (pt_x a - pt_x b)%Q (pt_y a - pt_y b)%Q.

(** [a > b] on idealised floating point values. *)
Definition Qgt_bool (a b : Q) : bool := negb (Qle_bool a b).

(** The OpenCV primitives [update] calls. *)
Class OpenCV := {
  (** [cv::norm(p)], the Euclidean length of a vector. *)
  norm : Point2f -> Q;
  (** [cv::Rect::contains(p)]. *)
  Rect_contains : Rect -> Point2f -> bool;
}.

(** [cv::saturate_cast<int>] on a [float], the rounding OpenCV applies to
    each coordinate when a [cv::Point2f] is converted to a [cv::Point]. *)
Class SaturateCast := {
  saturate_cast : Q -> Z;
}.

(** The conversion [cv::Point2f -> cv::Point], which the compiler inserts
    where [update] pushes a [cv::Point2f] into [outputPredictions], a
    [std::vector<cv::Point>] (lines 30, 48 and 158). *)
Definition Point_of_Point2f `{!SaturateCast} (p : Point2f) : Point :=
  mkPoint (saturate_cast (pt_x p)) (saturate_cast (pt_y p)).

(** ** The motion filter *)

(** The numeric core that [kalman_tracker.cpp] wraps: the
    [cv::KalmanFilter] matrices, the last prediction and the lifetime
    counter. *)
Class KalmanFilterOps (KF : Type) := {
  (** state seeded at a centroid, for a step [dt] and an acceleration-noise
      magnitude *)
  kf_init : Point2f -> Q -> Q -> KF;
  kf_predict : KF -> KF;
  kf_correct : Point2f -> KF -> KF;
  kf_prediction : KF -> Point2f;
  kf_lifetime : KF -> Z;
  (** default arguments of the [KalmanTracker] constructor *)
  default_dt : Q;
  default_magnitudeOfAccelerationNoise : Q;
}.

Section Tracker.
Context {KF : Type} `{!KalmanFilterOps KF} `{!OpenCV} `{!SaturateCast}.

(** Modelled from the spec: [kalman_tracker.hpp] and [kalman_tracker.cpp]
    are missing from the sources. A tracker is its filter core, the
    [dt] and acceleration-noise magnitude it was constructed with, and the
    counter of consecutive frames without an update. *)
Record KalmanTracker := mkKalmanTracker {
  kt_filter : KF;
  kt_dt : Q;
  kt_magnitudeOfAccelerationNoise : Q;
  numFramesWithoutUpdate : Z;
}.

(** Modelled from the spec: [new(initial_centroid)] seeds the state and
    sets [missed_frames = 0]. *)
Definition KalmanTracker_new (startPt : Point2f) (dt mag : Q) : KalmanTracker :=
  mkKalmanTracker (kf_init startPt dt mag) dt mag 0.

(** Modelled from the spec: the one-argument constructor call
    [KalmanTracker(startPt)] takes the constructor's default [dt] and
    acceleration-noise magnitude. *)
Definition KalmanTracker_new_default (startPt : Point2f) : KalmanTracker :=
  KalmanTracker_new startPt default_dt default_magnitudeOfAccelerationNoise.

Definition with_filter (f : KF -> KF) (t : KalmanTracker) : KalmanTracker :=
  mkKalmanTracker (f (kt_filter t)) (kt_dt t)
    (kt_magnitudeOfAccelerationNoise t) (numFramesWithoutUpdate t).

Definition with_missed (f : Z -> Z) (t : KalmanTracker) : KalmanTracker :=
  mkKalmanTracker (kt_filter t) (kt_dt t)
    (kt_magnitudeOfAccelerationNoise t) (f (numFramesWithoutUpdate t)).

(** Modelled from the spec: [predict()] advances the state one step. *)
Definition predict : KalmanTracker -> KalmanTracker := with_filter kf_predict.

(** Modelled from the spec: [latest_prediction()] returns the last predicted
    position without mutation. *)
Definition latestPrediction (t : KalmanTracker) : Point2f :=
  kf_prediction (kt_filter t).

(** Modelled from the spec: [correct(observation)]. *)
Definition correct (pt : Point2f) : KalmanTracker -> KalmanTracker :=
  with_filter (kf_correct pt).

(** Modelled from the spec: [correct_no_obs()] is a self-correction that
    uses the last prediction as a synthetic observation. *)
Definition correct_no_obs (t : KalmanTracker) : KalmanTracker :=
  correct (latestPrediction t) t.

(** Modelled from the spec: [got_update()] resets [missed_frames] to 0. *)
Definition gotUpdate : KalmanTracker -> KalmanTracker := with_missed (fun _ => 0).

(** Modelled from the spec: [no_update_this_frame()] increments
    [missed_frames]. *)
Definition noUpdateThisFrame : KalmanTracker -> KalmanTracker :=
  with_missed (fun n => n + 1).

Definition getNumFramesWithoutUpdate : KalmanTracker -> Z := numFramesWithoutUpdate.
Definition getLifetime (t : KalmanTracker) : Z := kf_lifetime (kt_filter t).

(** ** The assignment solver *)

(** [hungarian.hpp] is not part of the sources: the solver enters through
    its contract. [Solve] maps the cost matrix (one row per tracker, one
    column per detection) to the assignment vector: one entry per row, each
    [-1] or a column of that row. *)
Record AssignmentProblemSolver := mkSolver {
  Solve : list (list Q) -> list Z;
  Solve_size : forall costMatrix, length (Solve costMatrix) = length costMatrix;
  Solve_range : forall costMatrix (i : nat) a row,
    Solve costMatrix !! i = Some a -> costMatrix !! i = Some row ->
    a = -1 \/ 0 <= a < Z.of_nat (length row);
}.

(** ** The tracker *)

Record MultiObjectTracker := mkMultiObjectTracker {
  kalmanTrackers : list KalmanTracker;
  frameSize : Size;
  lifetimeThreshold : Z;
  distanceThreshold : Q;
  missedFramesThreshold : Z;
  magnitudeOfAccelerationNoise : Q;
  dt : Q;
}.

Definition set_kalmanTrackers (m : MultiObjectTracker) (ks : list KalmanTracker)
  : MultiObjectTracker :=
  mkMultiObjectTracker ks (frameSize m) (lifetimeThreshold m)
    (distanceThreshold m) (missedFramesThreshold m)
    (magnitudeOfAccelerationNoise m) (dt m).

(** [for (size_t i = 0; i < n; i++) body], on a loop state [St]. *)
Definition for_range {St : Type} (n : nat) (body : nat -> St -> St) (s : St) : St :=
  foldl (fun s i => body i s) s (seq 0 n).

Section Update.
Variable solver : AssignmentProblemSolver.
Variable m : MultiObjectTracker.
Variable massCenters : list Point2f.
Variable boundingRects : list Rect.

Definition isDead (k : KalmanTracker) : bool :=
  missedFramesThreshold m <? getNumFramesWithoutUpdate k.

Definition isVisible (k : KalmanTracker) : bool :=
  lifetimeThreshold m <? getLifetime k.

(** *** No detections (lines 34-52) *)

(** Lines 35-44. Each iteration marks tracker [i] as not updated; a dead
    tracker is erased and [i--; i++] leaves the index in place, otherwise
    the index advances. The loop ends when [i] reaches the current size;
    every iteration consumes one tracker, so [length ks] iterations
    suffice. *)
Fixpoint markAndEvict (fuel i : nat) (ks : list KalmanTracker) : list KalmanTracker :=
  match fuel with
  | O => ks
  | S fuel' =>
      match ks !! i with
      | None => ks
      | Some k =>
          let ks1 := <[i := noUpdateThisFrame k]> ks in
          if isDead (noUpdateThisFrame k)
          then markAndEvict fuel' i (delete i ks1)
          else markAndEvict fuel' (S i) ks1
      end
  end.

(** Lines 46-50. [predict()] advances tracker [i] and returns the new
    prediction, which is pushed to the output, a vector of [cv::Point]. *)
Definition predictVisibleStep (i : nat)
    (st : list KalmanTracker * list Point) : list KalmanTracker * list Point :=
  let '(ks, out) := st in
  match ks !! i with
  | Some k =>
      if isVisible k
      then (<[i := predict k]> ks,
            out ++ [Point_of_Point2f (latestPrediction (predict k))])
      else st
  | None => st
  end.

Definition updateNoDetections : MultiObjectTracker * list Point :=
  let ks1 := markAndEvict (length (kalmanTrackers m)) 0 (kalmanTrackers m) in
  let '(ks2, out) := for_range (length ks1) predictVisibleStep (ks1, []) in
  (set_kalmanTrackers m ks2, out).

(** *** Detections present (lines 54-160) *)

(** Lines 55-61. *)
Definition createInitialTrackers : list KalmanTracker :=
  match kalmanTrackers m with
  | [] =>
      foldl (fun ks massCenter =>
               ks ++ [KalmanTracker_new massCenter (dt m) (magnitudeOfAccelerationNoise m)])
            [] massCenters
  | ks => ks
  end.

(** Lines 73-76. *)
Definition predictions (ks : list KalmanTracker) : list Point2f :=
  latestPrediction <$> ks.

(** Lines 67 and 80-84. *)
Definition costMatrix (ks : list KalmanTracker) : list (list Q) :=
  (fun p => (fun c => norm (Point2f_sub p c)) <$> massCenters) <$> predictions ks.

(** [costMatrix[i][j]]; a column outside the row is excluded by the
    solver's contract. *)
Definition costAt (cm : list (list Q)) (i : nat) (j : Z) : Q :=
  default 0%Q (cm !! i ≫= fun row => row !! Z.to_nat j).

(** Line 92. *)
Definition frameDimension : Q :=
  (1 # 2) * inject_Z (size_height (frameSize m) + size_width (frameSize m)).

(** The state of the gating loop: the assignment, the trackers, and
    [kalmansWithoutCenters]. *)
Record GateState := mkGateState {
  gs_assignment : list Z;
  gs_trackers : list KalmanTracker;
  gs_kalmansWithoutCenters : list nat;
}.

(** Lines 93-102, one iteration. *)
Definition gateStep (cm : list (list Q)) (i : nat) (st : GateState) : GateState :=
  match gs_assignment st !! i with
  | Some a =>
      if negb (a =? -1) then
        if Qgt_bool (costAt cm i a) (distanceThreshold m * frameDimension)
        then mkGateState (<[i := -1]> (gs_assignment st)) (gs_trackers st)
                         (gs_kalmansWithoutCenters st ++ [i])
        else st
      else mkGateState (gs_assignment st)
                       (alter noUpdateThisFrame i (gs_trackers st))
                       (gs_kalmansWithoutCenters st)
  | None => st
  end.

Definition gate (cm : list (list Q)) (assignment : list Z)
    (ks : list KalmanTracker) : GateState :=
  for_range (length assignment) (gateStep cm) (mkGateState assignment ks []).

(** Lines 110-115: the inner loop stops at the first containing box. *)
Definition insideSomeBox (k : KalmanTracker) : bool :=
  existsb (fun r => Rect_contains r (latestPrediction k)) boundingRects.

(** Lines 108-117, one iteration. *)
Definition occlusionStep (assignment : list Z) (i : nat)
    (ks : list KalmanTracker) : list KalmanTracker :=
  match assignment !! i, ks !! i with
  | Some a, Some k =>
      if (a =? -1) && insideSomeBox k then alter gotUpdate i ks else ks
  | _, _ => ks
  end.

Definition occlusionPass (assignment : list Z) (ks : list KalmanTracker)
  : list KalmanTracker :=
  for_range (length assignment) (occlusionStep assignment) ks.

(** Lines 120-126: a dead tracker and its assignment entry are erased
    together and the index stays in place. *)
Fixpoint evictDead (fuel i : nat) (ks : list KalmanTracker) (assignment : list Z)
  : list KalmanTracker * list Z :=
  match fuel with
  | O => (ks, assignment)
  | S fuel' =>
      match ks !! i with
      | None => (ks, assignment)
      | Some k =>
          if isDead k
          then evictDead fuel' i (delete i ks) (delete i assignment)
          else evictDead fuel' (S i) ks assignment
      end
  end.

(** Lines 129-136: [std::find] over the assignment for every detection
    index. *)
Definition centersWithoutKalman (assignment : list Z) : list nat :=
  filter (fun i => existsb (Z.eqb (Z.of_nat i)) assignment = false)
         (seq 0 (length massCenters)).

(** Lines 139-141. *)
Definition createNewTrackers (centers : list nat) (ks : list KalmanTracker)
  : list KalmanTracker :=
  foldl (fun ks j =>
           match massCenters !! j with
           | Some c => ks ++ [KalmanTracker_new_default c]
           | None => ks
           end) ks centers.

(** Lines 145-152, the body applied to tracker [i]. An assigned column
    outside [massCenters] is excluded by the solver's contract. *)
Definition updateTracker (a : Z) (k : KalmanTracker) : KalmanTracker :=
  let k1 := predict k in
  if negb (a =? -1) then
    match massCenters !! Z.to_nat a with
    | Some c => gotUpdate (correct c k1)
    | None => k1
    end
  else correct_no_obs k1.

(** Lines 144-153, one iteration. *)
Definition updateStep (assignment : list Z) (i : nat)
    (ks : list KalmanTracker) : list KalmanTracker :=
  match assignment !! i with
  | Some a => alter (updateTracker a) i ks
  | None => ks
  end.

Definition updateFilters (assignment : list Z) (ks : list KalmanTracker)
  : list KalmanTracker :=
  for_range (length assignment) (updateStep assignment) ks.

(** Lines 156-160: the latest prediction is pushed to the output, a
    vector of [cv::Point]. *)
Definition emitStep (ks : list KalmanTracker) (i : nat) (out : list Point)
  : list Point :=
  match ks !! i with
  | Some k =>
      if isVisible k then out ++ [Point_of_Point2f (latestPrediction k)] else out
  | None => out
  end.

Definition emitPredictions (ks : list KalmanTracker) : list Point :=
  for_range (length ks) (emitStep ks) [].

(** The stages of a frame with detections, named so that statements can
    refer to the intermediate vectors. *)
Definition trackersAtSolve : list KalmanTracker := createInitialTrackers.
Definition costs : list (list Q) := costMatrix trackersAtSolve.
Definition solved : list Z := Solve solver costs.
Definition gated : GateState := gate costs solved trackersAtSolve.
Definition afterOcclusion : list KalmanTracker :=
  occlusionPass (gs_assignment gated) (gs_trackers gated).
Definition afterEviction : list KalmanTracker * list Z :=
  evictDead (length afterOcclusion) 0 afterOcclusion (gs_assignment gated).
Definition born : list nat := centersWithoutKalman afterEviction.2.
Definition afterBirths : list KalmanTracker :=
  createNewTrackers born afterEviction.1.
Definition afterUpdate : list KalmanTracker :=
  updateFilters afterEviction.2 afterBirths.

Definition updateWithDetections : MultiObjectTracker * list Point :=
  (set_kalmanTrackers m afterUpdate, emitPredictions afterUpdate).

(** [MultiObjectTracker::update]: the new tracker state and
    [outputPredictions]. *)
Definition update : MultiObjectTracker * list Point :=
  match massCenters with
  | [] => updateNoDetections
  | _ => updateWithDetections
  end.

(** *** What each loop does to slot [i]

    The loops above are restated slot by slot; the lemmas of the second
    part prove the two readings equal. *)

(** The gating loop on the assignment entry of tracker [i]. *)
Definition gatedEntry (cm : list (list Q)) (i : nat) (a : Z) : Z :=
  if negb (a =? -1) && Qgt_bool (costAt cm i a) (distanceThreshold m * frameDimension)
  then -1 else a.

(** The gating loop on tracker [i], given the solver's assignment. *)
Definition markUnassigned (assignment : list Z) (i : nat) (k : KalmanTracker)
  : KalmanTracker :=
  match assignment !! i with
  | Some a => if a =? -1 then noUpdateThisFrame k else k
  | None => k
  end.

(** The occlusion loop on tracker [i], given the gated assignment. *)
Definition tolerate (assignment : list Z) (i : nat) (k : KalmanTracker)
  : KalmanTracker :=
  match assignment !! i with
  | Some a => if (a =? -1) && insideSomeBox k then gotUpdate k else k
  | None => k
  end.

(** The filter-update loop on tracker [i]. *)
Definition updateAt (assignment : list Z) (i : nat) (k : KalmanTracker)
  : KalmanTracker :=
  match assignment !! i with
  | Some a => updateTracker a k
  | None => k
  end.

(** The trackers that are not dead, each with its assignment entry. *)
Definition survivors (ks : list KalmanTracker) (assignment : list Z)
  : list (KalmanTracker * Z) :=
  filter (fun p => isDead p.1 = false) (zip ks assignment).

(** The slot that tracker [i] occupies once the dead trackers before it
    are erased. *)
Definition survivorRank (ks : list KalmanTracker) (assignment : list Z) (i : nat)
  : nat :=
  length (survivors (take i ks) (take i assignment)).

(** The trackers constructed for the detections in [centers]. *)
Definition newborns (centers : list nat) : list KalmanTracker :=
  omap (fun j => KalmanTracker_new_default <$> massCenters !! j) centers.

End Update.
End Tracker.

Arguments KalmanTracker KF : clear implicits.
Arguments MultiObjectTracker KF : clear implicits.
Arguments GateState KF : clear implicits.

(** ** The contour pipeline *)

(** A contour, [std::vector<cv::Point>]. *)
Abbreviation Contour := (list Point).

(** The moments [getCentersAndBoundingBoxes] reads from [cv::Moments]. *)
Record Moments := mkMoments { m00 : Q; m10 : Q; m01 : Q }.

(** The OpenCV primitives of [contour_finder.cpp]. *)
Class ContourCV := {
  (** [cv::contourArea(contour)], the absolute area *)
  contourArea : Contour -> Q;
  contourArea_nonneg : forall c, (0 <= contourArea c)%Q;
  (** [cv::moments(contour, false)] *)
  moments : Contour -> Moments;
  (** [cv::boundingRect] of [cv::approxPolyDP(contour, 3, true)] *)
  approxBoundingRect : Contour -> Rect;
}.

(** [disjoint_set.hpp] is not part of the sources: the structure enters
    through the contract of a union-find. [ds_wf n s] says that [s] is a
    well-formed structure over the elements [0 .. n-1]; [FindSet] is read
    as a function, path compression leaves its results unchanged. *)
Record DisjointSets := mkDisjointSets {
  dsets : Type;
  ds_new : nat -> dsets;
  ds_Union : nat -> nat -> dsets -> dsets;
  ds_FindSet : dsets -> nat -> nat;
  ds_wf : nat -> dsets -> Prop;
  ds_new_wf : forall n, ds_wf n (ds_new n);
  ds_new_FindSet : forall n i, (i < n)%nat -> ds_FindSet (ds_new n) i = i;
  ds_Union_wf : forall n a b s,
    ds_wf n s -> (a < n)%nat -> (b < n)%nat -> ds_wf n (ds_Union a b s);
  (** the representative of a set is one of its elements *)
  ds_FindSet_member : forall n s i,
    ds_wf n s -> (i < n)%nat ->
    (ds_FindSet s i < n)%nat /\ ds_FindSet s (ds_FindSet s i) = ds_FindSet s i;
  (** [Union a b] joins the sets of [a] and [b] and no others *)
  ds_Union_FindSet : forall n a b s i j,
    ds_wf n s -> (a < n)%nat -> (b < n)%nat -> (i < n)%nat -> (j < n)%nat ->
    (ds_FindSet (ds_Union a b s) i = ds_FindSet (ds_Union a b s) j
     <-> ds_FindSet s i = ds_FindSet s j
         \/ (ds_FindSet s i = ds_FindSet s a /\ ds_FindSet s j = ds_FindSet s b)
         \/ (ds_FindSet s i = ds_FindSet s b /\ ds_FindSet s j = ds_FindSet s a));
}.

(** A quotient of two [double]s: finite when the divisor is not zero,
    otherwise an infinity or a NaN. *)
Inductive Quotient := Finite (q : Q) | NotFinite.

Definition fdiv (a b : Q) : Quotient :=
  if Qeq_bool b 0 then NotFinite else Finite (a / b).

(** A mass center as [getCentersAndBoundingBoxes] computes it. *)
Record Centroid := mkCentroid { centroid_x : Quotient; centroid_y : Quotient }.

(** The range of [int]. *)
Definition INT_MIN : Z := -2147483648.
Definition INT_MAX : Z := 2147483647.

(** The whole-number part of a value: truncation toward zero. *)
Definition trunc (q : Q) : Z := Z.quot (Qnum q) (Z.pos (Qden q)).

(** The truncated value is representable in an [int]. *)
Definition fitsInt (q : Q) : bool :=
  (INT_MIN <=? trunc q) && (trunc q <=? INT_MAX).

(** The conversion of a [double] or [float] to [int]: truncation toward
    zero when the truncated value is representable. Otherwise C++ leaves
    the result undefined; the value taken here is the one the conversion
    instruction of x86-64 ([cvttsd2si], [cvttss2si]) delivers,
    [INT_MIN]. *)
Definition to_int (q : Q) : Z := if fitsInt q then trunc q else INT_MIN.

(** [a < b] on idealised floating point values. *)
Definition Qlt_bool (a b : Q) : bool := Qgt_bool b a.

Definition Qmax (a b : Q) : Q := if Qle_bool a b then b else a.

Record ContourFinder := mkContourFinder {
  contourSizeThreshold : Q;
  medianFilterSize : Z;
  contourMergeThreshold : Q;
}.

Section Contours.
Context `{!ContourCV} `{!OpenCV}.
Variable sets : DisjointSets.
Variable this : ContourFinder.

(** Lines 42-47: [std::accumulate] with the initial value [0], an [int]:
    the accumulator is an [int], so every step converts the maximum back
    to [int] (with [to_int], within the range of [int]); the result is
    read as a [double]. *)
Definition maxArea (areas : list Q) : Q :=
  inject_Z (foldl (fun (prevMaxArea : Z) area => to_int (Qmax (inject_Z prevMaxArea) area))
                  0 areas).

(** Line 50: [int threshold = contourSizeThreshold * maxArea], the
    product converted to [int]. *)
Definition threshold (contours : list Contour) : Z :=
  to_int (contourSizeThreshold this * maxArea (contourArea <$> contours)).

(** [ContourFinder::filterOutBadContours]: [remove_if] drops the contours
    with [area <= threshold] and keeps the order of the others. *)
Definition filterOutBadContours (contours : list Contour) : list Contour :=
  filter (fun contour =>
            Qle_bool (contourArea contour) (inject_Z (threshold contours)) = false)
         contours.

(** Line 175: the center of mass, with no test on [m00]. *)
Definition massCenter (contour : Contour) : Centroid :=
  let contourMoments := moments contour in
  mkCentroid (fdiv (m10 contourMoments) (m00 contourMoments))
             (fdiv (m01 contourMoments) (m00 contourMoments)).

(** [ContourFinder::getCentersAndBoundingBoxes]: one center and one box
    are pushed for every contour. *)
Definition getCentersAndBoundingBoxes (contours : list Contour)
  : list Centroid * list Rect :=
  (massCenter <$> contours, approxBoundingRect <$> contours).

Definition finitePoint (c : Centroid) : option Point2f :=
  match centroid_x c, centroid_y c with
  | Finite x, Finite y => Some (mkPoint2f x y)
  | _, _ => None
  end.

(** Lines 113-117: the merge test for contours [i] and [j]. A comparison
    with an infinity or a NaN on the left is false. *)
Definition closeEnough (massCenters : list Centroid) (boundingBoxes : list Rect)
    (i j : nat) : bool :=
  match massCenters !! i, massCenters !! j, boundingBoxes !! i, boundingBoxes !! j with
  | Some ci, Some cj, Some bi, Some bj =>
      let dimension :=
        Z.max (Z.max (rect_width bi) (rect_height bi))
              (Z.max (rect_width bj) (rect_height bj)) in
      match finitePoint ci, finitePoint cj with
      | Some pi, Some pj =>
          Qlt_bool (norm (Point2f_sub pi pj))
                   (contourMergeThreshold this * inject_Z dimension)
      | _, _ => false
      end
  | _, _, _, _ => false
  end.

(** Lines 105-121. *)
Definition unionClose (n : nat) (massCenters : list Centroid)
    (boundingBoxes : list Rect) : dsets sets :=
  for_range n (fun i s =>
    for_range n (fun j s =>
      if (i =? j)%nat then s
      else if closeEnough massCenters boundingBoxes i j
           then ds_Union sets i j s else s) s)
    (ds_new sets n).

(** Lines 125-131: [itemsForSet], from a set's representative to the
    indices of its contours. *)
Definition collectStep (s : dsets sets) (i : nat)
    (itemsForSet : gmap nat (list nat)) : gmap nat (list nat) :=
  let r := ds_FindSet sets s i in
  let items1 :=
    match itemsForSet !! r with
    | None => <[r := []]> itemsForSet
    | Some _ => itemsForSet
    end in
  alter (fun v => v ++ [i]) r items1.

Definition collectItems (n : nat) (s : dsets sets) : gmap nat (list nat) :=
  for_range n (collectStep s) ∅.

(** [contours[i]]. *)
Definition contourAt (contours : list Contour) (i : nat) : Contour :=
  default [] (contours !! i).

(** Lines 136-152: the contour pushed for one entry of [itemsForSet]. *)
Definition mergeGroup (contours : list Contour) (kv : nat * list nat) : Contour :=
  if (length kv.2 =? 1)%nat then contourAt contours kv.1
  else
    match kv.2 with
    | [] => []
    | first :: rest =>
        foldl (fun aggregate i => aggregate ++ contourAt contours i)
              (contourAt contours first) rest
    end.

(** [ContourFinder::mergeContours]. The iteration order of the
    [std::unordered_map] is the order of [map_to_list]. *)
Definition mergeContours (contours : list Contour) (massCenters : list Centroid)
    (boundingBoxes : list Rect) : list Contour :=
  let s := unionClose (length contours) massCenters boundingBoxes in
  let itemsForSet := collectItems (length contours) s in
  mergeGroup contours <$> map_to_list itemsForSet.

(** [ContourFinder::findContours] from line 87 on, applied to the contours
    that [cv::findContours] extracted: the contours, mass centers and
    bounding boxes it leaves in its output arguments. *)
Definition findContours (extracted : list Contour)
  : list Contour * list Centroid * list Rect :=
  let contours1 := filterOutBadContours extracted in
  let '(massCenters1, boundingBoxes1) := getCentersAndBoundingBoxes contours1 in
  let contours2 := mergeContours contours1 massCenters1 boundingBoxes1 in
  let '(massCenters2, boundingBoxes2) := getCentersAndBoundingBoxes contours2 in
  (contours2, massCenters2, boundingBoxes2).

(** *** The words of the specification *)

(** [A_max], the largest contour area. *)
Definition largestArea (contours : list Contour) : Q :=
  foldr Qmax 0%Q (contourArea <$> contours).

(** Every area is within the range of [int]. *)
Definition areasFit (contours : list Contour) : Prop :=
  forall c, c ∈ contours -> fitsInt (contourArea c) = true.

(** The centroid-proximity relation on the indices of [n] contours, and
    its closure under reflexivity, symmetry and transitivity. *)
Definition proximate (n : nat) (massCenters : list Centroid)
    (boundingBoxes : list Rect) (i j : nat) : Prop :=
  (i < n)%nat /\ (j < n)%nat /\ closeEnough massCenters boundingBoxes i j = true.

Definition sameClass (n : nat) (massCenters : list Centroid)
    (boundingBoxes : list Rect) : nat -> nat -> Prop :=
  clos_refl_sym_trans nat (proximate n massCenters boundingBoxes).

(** The structure [s] over [n] elements represents the closure of the
    pairs in [P]: two elements have the same representative exactly when
    the closure relates them. *)
Definition represents (n : nat) (s : dsets sets) (P : nat -> nat -> Prop) : Prop :=
  ds_wf sets n s
  /\ forall i j, (i < n)%nat -> (j < n)%nat ->
       (ds_FindSet sets s i = ds_FindSet sets s j <-> clos_refl_sym_trans nat P i j).

(** The indices below [n] that share the representative [r]. *)
Definition members (s : dsets sets) (n r : nat) : list nat :=
  filter (fun j => ds_FindSet sets s j = r) (seq 0 n).

(** All member point sequences, concatenated in index order. *)
Definition concatenated (contours : list Contour) (group : list nat) : Contour :=
  mjoin (contourAt contours <$> group).

End Contours.

(** ** The front end ([main.cpp], [modes/tracking_mode.cpp]) *)

(** [MultiObjectTracker::MultiObjectTracker] (lines 13-26): the pool
    starts empty. *)
Definition MultiObjectTracker_new {KF : Type} (frameSize : Size)
    (lifetimeThreshold : Z) (distanceThreshold : Q) (missedFramesThreshold : Z)
    (dt magnitudeOfAccelerationNoise : Q) : MultiObjectTracker KF :=
  mkMultiObjectTracker [] frameSize lifetimeThreshold distanceThreshold
    missedFramesThreshold magnitudeOfAccelerationNoise dt.

(** The frame size the callers pass: [cv::Size(frame.rows, frame.cols)],
    the rows in the place of the width ([main.cpp] line 247,
    [tracking_mode.cpp] line 134). *)
Definition callerFrameSize (rows cols : Z) : Size := mkSize rows cols.

(** The mouse events [mouseHandler] tells apart. *)
Inductive MouseEvent :=
  | EVENT_MOUSEMOVE
  | EVENT_LBUTTONDOWN
  | EVENT_LBUTTONUP
  | EVENT_OTHER.

(** The globals of [main.cpp] lines 20-23. *)
Record MouseState := mkMouseState {
  isDragging : bool;
  hasRectangle : bool;
  triggerCallback : bool;
  point1 : Point;
  point2 : Point;
}.

(** The globals as the program starts: the flags false, the points
    zero-initialised. *)
Definition mouseStart : MouseState :=
  mkMouseState false false false (mkPoint 0 0) (mkPoint 0 0).

(** [mouseHandler] ([main.cpp] lines 25-39, [tracking_mode.cpp] lines
    30-44); the line printed on a press is left out. *)
Definition mouseHandler (event : MouseEvent) (x y : Z) (st : MouseState) : MouseState :=
  match event, isDragging st with
  | EVENT_LBUTTONDOWN, false =>
      mkMouseState true (hasRectangle st) (triggerCallback st)
                   (mkPoint x y) (point2 st)
  | EVENT_MOUSEMOVE, true =>
      mkMouseState (isDragging st) true (triggerCallback st)
                   (point1 st) (mkPoint x y)
  | EVENT_LBUTTONUP, true =>
      mkMouseState false false true (point1 st) (mkPoint x y)
  | _, _ => st
  end.

(** [cv::Rect(pt1, pt2)]: the box spanned by two corners. *)
Definition Rect_of_corners (pt1 pt2 : Point) : Rect :=
  let x := Z.min (point_x pt1) (point_x pt2) in
  let y := Z.min (point_y pt1) (point_y pt2) in
  mkRect x y (Z.max (point_x pt1) (point_x pt2) - x)
             (Z.max (point_y pt1) (point_y pt2) - y).

(** What the end of a frame does with the mouse state ([main.cpp] lines
    275-283, [tracking_mode.cpp] lines 165-173): whether the rectangle is
    drawn, and the rectangle handed to [suppressRectangle], if any. *)
Record MouseOutcome := mkMouseOutcome {
  mo_state : MouseState;
  mo_drawn : bool;
  mo_suppressed : option Rect;
}.

Definition handleMouseCallbacks (st : MouseState) : MouseOutcome :=
  let drawn := hasRectangle st || triggerCallback st in
  if triggerCallback st
  then mkMouseOutcome
         (mkMouseState (isDragging st) (hasRectangle st) false (point1 st) (point2 st))
         drawn (Some (Rect_of_corners (point1 st) (point2 st)))
  else mkMouseOutcome st drawn None.

(** What happens to the mouse state while the program runs: the window
    system calls the handler, or the frame loop reaches lines 275-283. *)
Inductive UiAction :=
  | Mouse (event : MouseEvent) (x y : Z)
  | FrameEnd.

Definition uiStep (st : MouseState) (a : UiAction) : MouseState :=
  match a with
  | Mouse event x y => mouseHandler event x y st
  | FrameEnd => mo_state (handleMouseCallbacks st)
  end.

Definition uiRun (st : MouseState) (actions : list UiAction) : MouseState :=
  foldl uiStep st actions.

(** The rectangles handed to [suppressRectangle] along a run, in order. *)
Fixpoint uiSuppressed (st : MouseState) (actions : list UiAction) : list Rect :=
  match actions with
  | [] => []
  | a :: rest =>
      match a with
      | FrameEnd =>
          match mo_suppressed (handleMouseCallbacks st) with
          | Some r => r :: uiSuppressed (uiStep st a) rest
          | None => uiSuppressed (uiStep st a) rest
          end
      | Mouse _ _ _ => uiSuppressed (uiStep st a) rest
      end
  end.

Definition isRelease (a : UiAction) : bool :=
  match a with
  | Mouse EVENT_LBUTTONUP _ _ => true
  | _ => false
  end.

(** The state of the selection loop of [orderPoints] ([main.cpp] lines
    86-93). *)
Record OrderState := mkOrderState {
  maxSumIndex : nat;
  minSumIndex : nat;
  maxSum : Z;
  minSum : Z;
  minDifferenceIndex : nat;
  maxDifferenceIndex : nat;
  minDifference : Z;
  maxDifference : Z;
}.

(** [fourPoints[i]]. *)
Definition pointAt (fourPoints : list Point2f) (i : nat) : Point2f :=
  default (mkPoint2f 0 0) (fourPoints !! i).

(** Lines 79-82: the sums and differences are converted to [int] and
    stored in [int sums[4]] and [int differences[4]]. *)
Definition sumAt (fourPoints : list Point2f) (i : nat) : Z :=
  to_int (pt_x (pointAt fourPoints i) + pt_y (pointAt fourPoints i)).

Definition differenceAt (fourPoints : list Point2f) (i : nat) : Z :=
  to_int (pt_y (pointAt fourPoints i) - pt_x (pointAt fourPoints i)).

(** Lines 95-110, one iteration: four independent tests, in this order. *)
Definition orderStep (fourPoints : list Point2f) (i : nat) (st : OrderState)
  : OrderState :=
  let st1 :=
    if sumAt fourPoints i <? minSum st
    then mkOrderState (maxSumIndex st) i (maxSum st) (sumAt fourPoints i)
           (minDifferenceIndex st) (maxDifferenceIndex st)
           (minDifference st) (maxDifference st)
    else st in
  let st2 :=
    if maxSum st1 <? sumAt fourPoints i
    then mkOrderState i (minSumIndex st1) (sumAt fourPoints i) (minSum st1)
           (minDifferenceIndex st1) (maxDifferenceIndex st1)
           (minDifference st1) (maxDifference st1)
    else st1 in
  let st3 :=
    if differenceAt fourPoints i <? minDifference st2
    then mkOrderState (maxSumIndex st2) (minSumIndex st2) (maxSum st2) (minSum st2)
           i (maxDifferenceIndex st2)
           (differenceAt fourPoints i) (maxDifference st2)
    else st2 in
  if maxDifference st3 <? differenceAt fourPoints i
  then mkOrderState (maxSumIndex st3) (minSumIndex st3) (maxSum st3) (minSum st3)
         (minDifferenceIndex st3) i
         (minDifference st3) (differenceAt fourPoints i)
  else st3.

(** [orderPoints] ([main.cpp] lines 76-121), for an array of four points:
    the point of least sum, of least difference, of greatest sum and of
    greatest difference, in this order. *)
Definition orderPoints (fourPoints : list Point2f) : list Point2f :=
  let start :=
    mkOrderState 0 0 (sumAt fourPoints 0) (sumAt fourPoints 0)
                 0 0 (differenceAt fourPoints 0) (differenceAt fourPoints 0) in
  let st := for_range 4 (orderStep fourPoints) start in
  [pointAt fourPoints (minSumIndex st);
   pointAt fourPoints (minDifferenceIndex st);
   pointAt fourPoints (maxSumIndex st);
   pointAt fourPoints (maxDifferenceIndex st)].

(** The [int]s lines 80-81 store for a point. *)
Definition storedSum (p : Point2f) : Z := to_int (pt_x p + pt_y p).




(** ** Runs of several frames *)

(** The frame loop ([main.cpp] lines 231-286) as far as the tracker is
    concerned: one call of [update] per frame, on the mass centers and
    bounding boxes found in it; the predictions of every frame are
    collected. *)
Fixpoint updateFrames {KF : Type} `{!KalmanFilterOps KF} `{!OpenCV} `{!SaturateCast}
    (solver : AssignmentProblemSolver) (frames : list (list Point2f * list Rect))
    (m : MultiObjectTracker KF) : MultiObjectTracker KF * list (list Point) :=
  match frames with
  | [] => (m, [])
  | (massCenters, boundingRects) :: rest =>
      let r := update solver m massCenters boundingRects in
      let rs := updateFrames solver rest r.1 in
      (rs.1, r.2 :: rs.2)
  end.

(** [n] consecutive calls of [update] without detections. *)
Fixpoint updateEmptyFrames {KF : Type} `{!KalmanFilterOps KF} `{!OpenCV}
    `{!SaturateCast}
    (solver : AssignmentProblemSolver) (rects : list Rect) (n : nat)
    (m : MultiObjectTracker KF) : MultiObjectTracker KF :=
  match n with
  | O => m
  | S n' => updateEmptyFrames solver rects n' (update solver m [] rects).1
  end.

(** The tracker with width and height of its frame size exchanged. *)
Definition swapFrameSize {KF : Type} (m : MultiObjectTracker KF) : MultiObjectTracker KF :=
  mkMultiObjectTracker (kalmanTrackers m)
    (mkSize (size_height (frameSize m)) (size_width (frameSize m)))
    (lifetimeThreshold m) (distanceThreshold m) (missedFramesThreshold m)
    (magnitudeOfAccelerationNoise m) (dt m).

(** ** Concrete instances

    Small implementations of the interfaces, so that [update] can be run. *)

Module Demo.

(** A constant-position filter: the estimate is the last observation,
    prediction leaves it in place, and the lifetime counts the calls of
    [predict]. *)
Record StaticFilter := mkStaticFilter { estimate : Point2f; age : Z }.

#[export] Instance static_ops : KalmanFilterOps StaticFilter := {|
  kf_init c _ _ := mkStaticFilter c 0;
  kf_predict s := mkStaticFilter (estimate s) (age s + 1);
  kf_correct z s := mkStaticFilter z (age s);
  kf_prediction := estimate;
  kf_lifetime := age;
  default_dt := 1;
  default_magnitudeOfAccelerationNoise := 1 # 2;
|}.

(** The Euclidean length rounded down to whole pixels, and the half-open
    box test of [cv::Rect]. *)
#[export] Instance pixel_cv : OpenCV := {|
  norm p := inject_Z (Z.sqrt (Qfloor (pt_x p * pt_x p + pt_y p * pt_y p)));
  Rect_contains r p :=
    Qle_bool (inject_Z (rect_x r)) (pt_x p)
    && Qgt_bool (inject_Z (rect_x r + rect_width r)) (pt_x p)
    && Qle_bool (inject_Z (rect_y r)) (pt_y p)
    && Qgt_bool (inject_Z (rect_y r + rect_height r)) (pt_y p);
|}.

(** Rounding to the nearest integer, a half to the even neighbour. *)
Definition roundHalfEven (q : Q) : Z :=
  let f := Qfloor q in
  match (q - inject_Z f ?= 1 # 2)%Q with
  | Lt => f
  | Gt => f + 1
  | Eq => if Z.even f then f else f + 1
  end.

#[export] Instance nearest_cast : SaturateCast := {|
  saturate_cast := roundHalfEven;
|}.

(** Tracker [i] is paired with detection [i] while there is one: a
    one-to-one assignment, optimal on a single row and column. *)
Definition diagonalSolve (cm : list (list Q)) : list Z :=
  imap (fun i row => if (i <? length row)%nat then Z.of_nat i else -1) cm.

Definition pt (x y : Z) : Point2f := mkPoint2f (inject_Z x) (inject_Z y).

(** A tracker whose last prediction is [(x, y)], with the given lifetime
    and miss counter. *)
Definition trackerAt (x y lifetime missed : Z) : KalmanTracker StaticFilter :=
  mkKalmanTracker (mkStaticFilter (pt x y) lifetime) 1 (1 # 2) missed.

(** A 500x500 frame, [distanceThreshold = 0.1], an acceleration-noise
    magnitude of 1/4 and [dt = 1]. *)
Definition tracker500 (lifetimeThr missedThr : Z)
    (ks : list (KalmanTracker StaticFilter)) : MultiObjectTracker StaticFilter :=
  mkMultiObjectTracker ks (mkSize 500 500) lifetimeThr (1 # 10) missedThr (1 # 4) 1.

(** [cv::contourArea] and [cv::moments] by Green's formula over the closed
    polygon, the previous point of the first one being the last. *)
Fixpoint greenSums (prev : Point) (c : Contour) : Z * Z * Z :=
  match c with
  | [] => (0, 0, 0)
  | p :: c' =>
      let dxy := point_x prev * point_y p - point_x p * point_y prev in
      let '(a00, a10, a01) := greenSums p c' in
      (dxy + a00,
       dxy * (point_x prev + point_x p) + a10,
       dxy * (point_y prev + point_y p) + a01)
  end.

Definition green (c : Contour) : Z * Z * Z :=
  match last c with
  | Some prev => greenSums prev c
  | None => (0, 0, 0)
  end.

Definition polygonArea (c : Contour) : Q := Qabs ((green c).1.1 # 2).

Definition polygonMoments (c : Contour) : Moments :=
  let '(a00, a10, a01) := green c in
  mkMoments (Qabs (a00 # 2)) (Z.sgn a00 * a10 # 6) (Z.sgn a00 * a01 # 6).

(** The bounding box of the contour's own points. *)
Definition pointsBox (c : Contour) : Rect :=
  match c with
  | [] => mkRect 0 0 0 0
  | p :: c' =>
      let x0 := foldr Z.min (point_x p) (point_x <$> c') in
      let x1 := foldr Z.max (point_x p) (point_x <$> c') in
      let y0 := foldr Z.min (point_y p) (point_y <$> c') in
      let y1 := foldr Z.max (point_y p) (point_y <$> c') in
      mkRect x0 y0 (x1 - x0 + 1) (y1 - y0 + 1)
  end.

#[export] Instance polygon_cv : ContourCV := {|
  contourArea := polygonArea;
  contourArea_nonneg c := Qabs_nonneg _;
  moments := polygonMoments;
  approxBoundingRect := pointsBox;
|}.

(** A disjoint-set structure that stores the representative of every
    element. *)
Definition qf_FindSet (s : list nat) (i : nat) : nat := default i (s !! i).

Definition qf_Union (a b : nat) (s : list nat) : list nat :=
  (fun r => if (r =? qf_FindSet s b)%nat then qf_FindSet s a else r) <$> s.

Definition qf_wf (n : nat) (s : list nat) : Prop :=
  length s = n
  /\ forall i, (i < n)%nat ->
       (qf_FindSet s i < n)%nat /\ qf_FindSet s (qf_FindSet s i) = qf_FindSet s i.

(** Two triangles of areas 5 and 5/2, a contour of a single point, and
    three squares of side 10, the first two overlapping. *)
Definition triangle5 : Contour := [mkPoint 0 0; mkPoint 5 0; mkPoint 0 2].
Definition triangle52 : Contour := [mkPoint 0 0; mkPoint 5 0; mkPoint 0 1].
Definition singlePoint : Contour := [mkPoint 3 4].
Definition squareA : Contour :=
  [mkPoint 100 100; mkPoint 110 100; mkPoint 110 110; mkPoint 100 110].
Definition squareB : Contour :=
  [mkPoint 104 100; mkPoint 114 100; mkPoint 114 110; mkPoint 104 110].
Definition squareC : Contour :=
  [mkPoint 300 300; mkPoint 310 300; mkPoint 310 310; mkPoint 300 310].

(** A triangle of area 1/2 and a square of side 50000, whose area
    2500000000 is beyond the range of [int]. *)
Definition unitTriangle : Contour := [mkPoint 0 0; mkPoint 1 0; mkPoint 0 1].
Definition bigSquare : Contour :=
  [mkPoint 0 0; mkPoint 50000 0; mkPoint 50000 50000; mkPoint 0 50000].

(** A finder with the given size and merge fractions. *)
Definition finder (sizeFraction mergeFraction : Q) : ContourFinder :=
  mkContourFinder sizeFraction 5 mergeFraction.

Lemma diagonalSolve_size cm : length (diagonalSolve cm) = length cm.
Proof. apply length_imap. Qed.

Lemma diagonalSolve_range cm (i : nat) a row :
  diagonalSolve cm !! i = Some a -> cm !! i = Some row ->
  a = -1 \/ 0 <= a < Z.of_nat (length row).
Proof.
  unfold diagonalSolve. rewrite list_lookup_imap. intros Ha Hrow.
  rewrite Hrow in Ha. simpl in Ha. injection Ha as <-.
  destruct (i <? length row)%nat eqn:E; [right | by left].
  apply Nat.ltb_lt in E. lia.
Qed.

Definition diagonalSolver : AssignmentProblemSolver :=
  mkSolver diagonalSolve diagonalSolve_size diagonalSolve_range.

Lemma qf_FindSet_Union a b s i :
  (i < length s)%nat ->
  qf_FindSet (qf_Union a b s) i
  = if (qf_FindSet s i =? qf_FindSet s b)%nat then qf_FindSet s a else qf_FindSet s i.
Proof.
  intros Hi. destruct (lookup_lt_is_Some_2 s i Hi) as [r Hr].
  assert (Hfi : qf_FindSet s i = r) by (unfold qf_FindSet; by rewrite Hr).
  rewrite Hfi. unfold qf_FindSet at 1, qf_Union.
  by rewrite list_lookup_fmap, Hr.
Qed.

Lemma qf_new_wf n : qf_wf n (seq 0 n).
Proof.
  unfold qf_wf. split; [apply length_seq|]. intros i Hi.
  assert (Hfi : qf_FindSet (seq 0 n) i = i)
    by (unfold qf_FindSet; by rewrite lookup_seq_lt).
  by rewrite !Hfi.
Qed.

Lemma qf_new_FindSet n i : (i < n)%nat -> qf_FindSet (seq 0 n) i = i.
Proof. intros Hi. unfold qf_FindSet. by rewrite lookup_seq_lt. Qed.

Lemma qf_Union_wf n a b s :
  qf_wf n s -> (a < n)%nat -> (b < n)%nat -> qf_wf n (qf_Union a b s).
Proof.
  intros [Hlen Hwf] Ha Hb. unfold qf_wf.
  split; [unfold qf_Union; by rewrite length_fmap|].
  intros i Hi.
  destruct (Hwf i Hi) as [Hi1 Hi2]. destruct (Hwf a Ha) as [Ha1 Ha2].
  rewrite (qf_FindSet_Union a b s i) by lia.
  destruct (qf_FindSet s i =? qf_FindSet s b)%nat eqn:E.
  - split; [done|]. rewrite qf_FindSet_Union, Ha2 by lia.
    by destruct (qf_FindSet s a =? qf_FindSet s b)%nat.
  - split; [done|]. by rewrite qf_FindSet_Union, Hi2, E by lia.
Qed.

Lemma qf_FindSet_member n s i :
  qf_wf n s -> (i < n)%nat ->
  (qf_FindSet s i < n)%nat /\ qf_FindSet s (qf_FindSet s i) = qf_FindSet s i.
Proof. intros [_ Hwf]. apply Hwf. Qed.

Lemma qf_Union_FindSet n a b s i j :
  qf_wf n s -> (a < n)%nat -> (b < n)%nat -> (i < n)%nat -> (j < n)%nat ->
  (qf_FindSet (qf_Union a b s) i = qf_FindSet (qf_Union a b s) j
   <-> qf_FindSet s i = qf_FindSet s j
       \/ (qf_FindSet s i = qf_FindSet s a /\ qf_FindSet s j = qf_FindSet s b)
       \/ (qf_FindSet s i = qf_FindSet s b /\ qf_FindSet s j = qf_FindSet s a)).
Proof.
  intros [Hlen _] Ha Hb Hi Hj.
  rewrite !qf_FindSet_Union by lia.
  destruct (qf_FindSet s i =? qf_FindSet s b)%nat eqn:Ei,
           (qf_FindSet s j =? qf_FindSet s b)%nat eqn:Ej;
    rewrite ?Nat.eqb_eq, ?Nat.eqb_neq in *; split; intros; intuition congruence.
Qed.

Definition quickFind : DisjointSets :=
  mkDisjointSets (list nat) (fun n => seq 0 n) qf_Union qf_FindSet qf_wf
    qf_new_wf qf_new_FindSet qf_Union_wf qf_FindSet_member qf_Union_FindSet.

End Demo.

(** ** Loops in closed form *)

Section LoopFacts.

Lemma for_range_S {St : Type} (n : nat) (body : nat -> St -> St) (s : St) :
  for_range (S n) body s = body n (for_range n body s).
Proof. unfold for_range. rewrite seq_S, foldl_app. reflexivity. Qed.

Lemma Qgt_bool_lt (a b : Q) : Qgt_bool a b = true <-> (b < a)%Q.
Proof.
  unfold Qgt_bool. rewrite negb_true_iff, <- not_true_iff_false, Qle_bool_iff.
  split; [apply Qnot_le_lt | apply Qlt_not_le].
Qed.

Lemma Qle_bool_false_lt (a b : Q) : Qle_bool a b = false <-> (b < a)%Q.
Proof.
  rewrite <- not_true_iff_false, Qle_bool_iff.
  split; [apply Qnot_le_lt | apply Qlt_not_le].
Qed.

Lemma ltb_S_same (n : nat) : (n <? S n)%nat = true.
Proof. apply Nat.ltb_lt. lia. Qed.

Lemma ltb_S_other (i n : nat) : i <> n -> (i <? S n)%nat = (i <? n)%nat.
Proof.
  intros Hne. destruct (i <? n)%nat eqn:E.
  - apply Nat.ltb_lt in E. apply Nat.ltb_lt. lia.
  - apply Nat.ltb_ge in E. apply Nat.ltb_ge. lia.
Qed.

(** A loop whose iteration [i] rewrites slot [i] only. *)
Lemma for_range_alter {A : Type} (g : nat -> A -> A) (n : nat) (l : list A) :
  for_range n (fun i l => alter (g i) i l) l
  = imap (fun i x => if (i <? n)%nat then g i x else x) l.
Proof.
  induction n as [|n IH].
  - unfold for_range. simpl. symmetry. apply list_eq. intros i.
    rewrite list_lookup_imap. by destruct (l !! i).
  - rewrite for_range_S, IH. apply list_eq. intros i.
    rewrite list_lookup_alter, !list_lookup_imap.
    destruct (decide (n = i)) as [->|Hne].
    + destruct (l !! i); simpl; [|done].
      rewrite Nat.ltb_irrefl.
      by replace (i <? S i)%nat with true by (symmetry; apply Nat.ltb_lt; lia).
    + destruct (l !! i); simpl; [|done]. f_equal.
      destruct (i <? n)%nat eqn:E1, (i <? S n)%nat eqn:E2; try done.
      * apply Nat.ltb_lt in E1. apply Nat.ltb_ge in E2. lia.
      * apply Nat.ltb_ge in E1. apply Nat.ltb_lt in E2. lia.
Qed.

Lemma imap_guard {A : Type} (f : nat -> A -> A) (l : list A) (n : nat) :
  (forall i x, l !! i = Some x -> (n <= i)%nat -> f i x = x) ->
  imap (fun i x => if (i <? n)%nat then f i x else x) l = imap f l.
Proof.
  intros Hout. apply imap_ext. intros i x Hi.
  destruct (i <? n)%nat eqn:E; [done|].
  apply Nat.ltb_ge in E. symmetry. by apply Hout.
Qed.

(** A slot that is absent, or that the body leaves as it is. *)
Lemma alter_fixed {A : Type} (f : A -> A) (l : list A) (i : nat) :
  (forall x, l !! i = Some x -> f x = x) -> alter f i l = l.
Proof.
  intros Hfix. apply list_eq. intros j. rewrite list_lookup_alter.
  destruct (decide (i = j)) as [->|]; [|done].
  destruct (l !! j) eqn:E; simpl; [|done]. by rewrite Hfix.
Qed.

Lemma for_range_ext {St : Type} (n : nat) (body body' : nat -> St -> St) (s : St) :
  (forall i s, body i s = body' i s) ->
  for_range n body s = for_range n body' s.
Proof.
  intros Hext. induction n as [|n IH]; [done|].
  by rewrite !for_range_S, IH, Hext.
Qed.

(** The position of the element at [i] among the elements kept by a
    filter. *)
Lemma filter_lookup_rank {A : Type} (P : A -> Prop) `{!forall x, Decision (P x)}
    (l : list A) (i : nat) (x : A) :
  l !! i = Some x -> P x ->
  filter P l !! length (filter P (take i l)) = Some x.
Proof.
  intros Hi HP.
  replace (filter P l) with (filter P (take i l ++ x :: drop (S i) l))
    by (f_equal; by apply take_drop_middle).
  rewrite filter_app, filter_cons_True by done.
  by rewrite lookup_app_r, Nat.sub_diag by lia.
Qed.

End LoopFacts.

(** ** The tracker's loops in closed form *)

Section TrackerFacts.
Context {KF : Type} `{!KalmanFilterOps KF} `{!OpenCV} `{!SaturateCast}.
Implicit Types (m : MultiObjectTracker KF) (k : KalmanTracker KF).
Implicit Types (ks : list (KalmanTracker KF)) (assignment : list Z).

Lemma markAndEvict_closed m (fuel i : nat) ks :
  (length ks <= i + fuel)%nat ->
  markAndEvict m fuel i ks
  = take i ks ++ filter (fun k => isDead m k = false) (noUpdateThisFrame <$> drop i ks).
Proof.
  revert i ks. induction fuel as [|fuel IH]; intros i ks Hlen; simpl.
  - rewrite drop_ge, take_ge by lia. by rewrite app_nil_r.
  - destruct (ks !! i) as [k|] eqn:Hk.
    + apply list_elem_of_split_length in Hk as (l1 & l2 & -> & ->).
      rewrite length_app in Hlen. simpl in Hlen.
      rewrite insert_app_r_alt, Nat.sub_diag by lia. simpl.
      rewrite take_app_length, drop_app_length, fmap_cons.
      destruct (isDead m (noUpdateThisFrame k)) eqn:Hdead.
      * rewrite filter_cons_False by (rewrite Hdead; done).
        rewrite delete_middle, IH by (rewrite length_app; lia).
        by rewrite take_app_length, drop_app_length.
      * rewrite filter_cons_True by done.
        rewrite IH by (rewrite length_app; simpl; lia).
        rewrite (cons_middle (noUpdateThisFrame k) l1 l2), app_assoc.
        replace (S (length l1)) with (length (l1 ++ [noUpdateThisFrame k]))
          by (rewrite length_app; simpl; lia).
        rewrite take_app_length, drop_app_length. by rewrite <- app_assoc.
    + apply lookup_ge_None in Hk.
      rewrite drop_ge, take_ge by lia. by rewrite app_nil_r.
Qed.

Lemma gate_prefix m cm assignment ks (n : nat) :
  let st := for_range n (gateStep m cm) (mkGateState assignment ks []) in
  gs_assignment st
    = imap (fun i a => if (i <? n)%nat then gatedEntry m cm i a else a) assignment
  /\ gs_trackers st
    = imap (fun i k => if (i <? n)%nat then markUnassigned assignment i k else k) ks.
Proof.
  induction n as [|n [IHa IHk]]; simpl.
  - unfold for_range; simpl. split; apply list_eq; intros i;
      rewrite list_lookup_imap; by destruct (_ !! i).
  - rewrite for_range_S. unfold gateStep at 1 3.
    set (st := for_range n (gateStep m cm) _) in *.
    assert (Hn : gs_assignment st !! n = assignment !! n).
    { rewrite IHa, list_lookup_imap. destruct (assignment !! n); simpl; [|done].
      by rewrite Nat.ltb_irrefl. }
    rewrite Hn.
    assert (Hrest : forall (A : Type) (f : nat -> A -> A) (l : list A) (i : nat),
      i <> n ->
      imap (fun i x => if (i <? S n)%nat then f i x else x) l !! i
      = imap (fun i x => if (i <? n)%nat then f i x else x) l !! i).
    { intros A f l i Hi. rewrite !list_lookup_imap.
      destruct (l !! i); simpl; [|done]. by rewrite ltb_S_other. }
    destruct (assignment !! n) as [a|] eqn:Ha.
    + destruct (negb (a =? -1)) eqn:Hneg.
      * assert (Hkeep : forall k, markUnassigned assignment n k = k).
        { intros k. unfold markUnassigned. rewrite Ha.
          apply negb_true_iff in Hneg. by rewrite Hneg. }
        destruct (Qgt_bool _ _) eqn:Hfar; simpl; (split; apply list_eq; intros i;
          destruct (decide (i = n)) as [->|Hi]);
          rewrite ?IHa, ?IHk, ?Hrest by done; try done.
        -- rewrite list_lookup_insert_eq
             by (rewrite length_imap; by eapply lookup_lt_Some).
           rewrite list_lookup_imap, Ha. simpl.
           rewrite ltb_S_same. unfold gatedEntry. by rewrite Hneg, Hfar.
        -- rewrite list_lookup_insert_ne by done. by rewrite <- Hrest.
        -- rewrite !list_lookup_imap.
           destruct (ks !! n); simpl; [|done].
           by rewrite ltb_S_same, Nat.ltb_irrefl, Hkeep.
        -- rewrite !list_lookup_imap, Ha. simpl.
           rewrite ltb_S_same, Nat.ltb_irrefl. unfold gatedEntry.
           by rewrite Hneg, Hfar.
        -- rewrite !list_lookup_imap.
           destruct (ks !! n); simpl; [|done].
           by rewrite ltb_S_same, Nat.ltb_irrefl, Hkeep.
      * apply negb_false_iff in Hneg. simpl.
        split; apply list_eq; intros i; destruct (decide (i = n)) as [->|Hi];
          rewrite ?list_lookup_alter_eq, ?list_lookup_alter_ne by done;
          rewrite ?IHa, ?IHk, ?Hrest by done; try done.
        -- rewrite !list_lookup_imap, Ha. simpl.
           rewrite ltb_S_same, Nat.ltb_irrefl. unfold gatedEntry.
           by rewrite Hneg.
        -- rewrite !list_lookup_imap.
           destruct (ks !! n); simpl; [|done].
           rewrite ltb_S_same, Nat.ltb_irrefl. unfold markUnassigned.
           by rewrite Ha, Hneg.
    + split; apply list_eq; intros i; destruct (decide (i = n)) as [->|Hi];
        rewrite ?IHa, ?IHk, ?Hrest by done; try done.
      * by rewrite !list_lookup_imap, Ha.
      * rewrite !list_lookup_imap. destruct (ks !! n); simpl; [|done].
        rewrite ltb_S_same, Nat.ltb_irrefl. unfold markUnassigned. by rewrite Ha.
Qed.

Lemma gate_assignment m cm assignment ks :
  gs_assignment (gate m cm assignment ks) = imap (gatedEntry m cm) assignment.
Proof.
  unfold gate.
  destruct (gate_prefix m cm assignment ks (length assignment)) as [-> _].
  apply imap_guard. intros i x Hi Hge. apply lookup_lt_Some in Hi. lia.
Qed.

Lemma gate_trackers m cm assignment ks :
  gs_trackers (gate m cm assignment ks) = imap (markUnassigned assignment) ks.
Proof.
  unfold gate.
  destruct (gate_prefix m cm assignment ks (length assignment)) as [_ ->].
  apply imap_guard. intros i x _ Hge. unfold markUnassigned.
  by rewrite (lookup_ge_None_2 assignment i).
Qed.

Lemma occlusionPass_closed rects assignment ks :
  occlusionPass rects assignment ks = imap (tolerate rects assignment) ks.
Proof.
  unfold occlusionPass.
  rewrite (for_range_ext _ _ (fun i l => alter (tolerate rects assignment i) i l)).
  - rewrite for_range_alter. apply imap_guard. intros i x _ Hge.
    unfold tolerate. by rewrite (lookup_ge_None_2 assignment i).
  - intros i l. unfold occlusionStep, tolerate.
    destruct (assignment !! i) as [a|]; [|by rewrite alter_fixed].
    destruct (l !! i) as [k|] eqn:Hk; [|by rewrite alter_fixed by congruence].
    destruct ((a =? -1) && insideSomeBox rects k) eqn:Hc.
    + apply list_alter_ext; [|done]. intros x Hx.
      assert (x = k) as -> by congruence. by rewrite Hc.
    + rewrite alter_fixed; [done|]. intros x Hx.
      assert (x = k) as -> by congruence. by rewrite Hc.
Qed.

Lemma updateFilters_closed mc assignment ks :
  updateFilters mc assignment ks = imap (updateAt mc assignment) ks.
Proof.
  unfold updateFilters.
  rewrite (for_range_ext _ _ (fun i l => alter (updateAt mc assignment i) i l)).
  - rewrite for_range_alter. apply imap_guard. intros i x _ Hge.
    unfold updateAt. by rewrite (lookup_ge_None_2 assignment i).
  - intros i l. unfold updateStep, updateAt.
    destruct (assignment !! i) as [a|]; [done | by rewrite alter_fixed].
Qed.

Lemma emitPredictions_closed m ks :
  emitPredictions m ks
  = (fun k => Point_of_Point2f (latestPrediction k))
      <$> filter (fun k => isVisible m k = true) ks.
Proof.
  unfold emitPredictions.
  assert (Hn : forall (n : nat), (n <= length ks)%nat ->
    for_range n (emitStep m ks) []
    = (fun k => Point_of_Point2f (latestPrediction k))
        <$> filter (fun k => isVisible m k = true) (take n ks)).
  { induction n as [|n IH]; intros Hle; [done|].
    rewrite for_range_S, IH by lia. unfold emitStep.
    destruct (lookup_lt_is_Some_2 ks n) as [k Hk]; [lia|].
    rewrite Hk, (take_S_r ks n k Hk), filter_app, fmap_app.
    destruct (isVisible m k) eqn:Hv.
    - by rewrite filter_cons_True by done.
    - rewrite filter_cons_False by (rewrite Hv; done). simpl.
      by rewrite app_nil_r. }
  by rewrite Hn, firstn_all by lia.
Qed.

Lemma createNewTrackers_closed mc centers ks :
  createNewTrackers mc centers ks = ks ++ newborns mc centers.
Proof.
  unfold createNewTrackers, newborns. revert ks.
  induction centers as [|j centers IH]; intros ks; simpl.
  - by rewrite app_nil_r.
  - rewrite IH. destruct (mc !! j); simpl; [|done].
    by rewrite <- app_assoc.
Qed.

Lemma createInitialTrackers_empty m mc :
  kalmanTrackers m = [] ->
  createInitialTrackers m mc
  = (fun c => KalmanTracker_new c (dt m) (magnitudeOfAccelerationNoise m)) <$> mc.
Proof.
  intros Hempty. unfold createInitialTrackers. rewrite Hempty.
  assert (Hacc : forall acc,
    foldl (fun ks c => ks ++ [KalmanTracker_new c (dt m) (magnitudeOfAccelerationNoise m)])
          acc mc
    = acc ++ ((fun c => KalmanTracker_new c (dt m) (magnitudeOfAccelerationNoise m)) <$> mc)).
  { induction mc as [|c mc IH]; intros acc; simpl.
    - by rewrite app_nil_r.
    - by rewrite IH, <- app_assoc. }
  by rewrite Hacc.
Qed.

Lemma createInitialTrackers_nonempty m mc :
  kalmanTrackers m <> [] -> createInitialTrackers m mc = kalmanTrackers m.
Proof. unfold createInitialTrackers. by destruct (kalmanTrackers m). Qed.

Lemma evictDead_closed m (fuel i : nat) ks assignment :
  length assignment = length ks ->
  (length ks <= i + fuel)%nat ->
  evictDead m fuel i ks assignment
  = (take i ks ++ (survivors m (drop i ks) (drop i assignment)).*1,
     take i assignment ++ (survivors m (drop i ks) (drop i assignment)).*2).
Proof.
  unfold survivors.
  revert i ks assignment. induction fuel as [|fuel IH]; intros i ks assignment Hsame Hlen; simpl.
  - rewrite !drop_ge, !take_ge by lia. simpl. by rewrite !app_nil_r.
  - destruct (ks !! i) as [k|] eqn:Hk.
    + destruct (lookup_lt_is_Some_2 assignment i) as [a Ha].
      { apply lookup_lt_Some in Hk. lia. }
      apply list_elem_of_split_length in Hk as (l1 & l2 & -> & Hl1).
      apply list_elem_of_split_length in Ha as (a1 & a2 & -> & Ha1).
      symmetry in Hl1, Ha1.
      rewrite (length_app a1), (length_app l1) in Hsame.
      rewrite (length_app l1) in Hlen. simpl in Hsame, Hlen.
      rewrite (take_app_length' l1), (take_app_length' a1) by done.
      rewrite (drop_app_length' l1), (drop_app_length' a1) by done. simpl.
      destruct (isDead m k) eqn:Hdead.
      * rewrite filter_cons_False by (simpl; rewrite Hdead; done).
        rewrite <- Hl1 at 2. rewrite <- Ha1 at 2. rewrite !delete_middle.
        rewrite IH by (rewrite ?length_app; lia).
        rewrite (take_app_length' l1), (take_app_length' a1) by done.
        by rewrite (drop_app_length' l1), (drop_app_length' a1) by done.
      * rewrite filter_cons_True by done.
        rewrite IH by (rewrite ?length_app; simpl; lia).
        rewrite (cons_middle k l1 l2), (cons_middle a a1 a2), !app_assoc.
        rewrite (take_app_length' (l1 ++ [k])), (take_app_length' (a1 ++ [a]))
          by (rewrite length_app; simpl; lia).
        rewrite (drop_app_length' (l1 ++ [k])), (drop_app_length' (a1 ++ [a]))
          by (rewrite length_app; simpl; lia).
        simpl. by rewrite <- !app_assoc.
    + apply lookup_ge_None in Hk.
      rewrite !drop_ge, !take_ge by lia. simpl. by rewrite !app_nil_r.
Qed.

Lemma predictVisible_closed m ks :
  for_range (length ks) (predictVisibleStep m) (ks, [])
  = ((fun k => if isVisible m k then predict k else k) <$> ks,
     (fun k => Point_of_Point2f (latestPrediction (predict k)))
       <$> filter (fun k => isVisible m k = true) ks).
Proof.
  assert (Hn : forall (n : nat), (n <= length ks)%nat ->
    for_range n (predictVisibleStep m) (ks, [])
    = (((fun k => if isVisible m k then predict k else k) <$> take n ks) ++ drop n ks,
       (fun k => Point_of_Point2f (latestPrediction (predict k)))
         <$> filter (fun k => isVisible m k = true) (take n ks))).
  { induction n as [|n IH]; intros Hle.
    - unfold for_range. simpl. by rewrite drop_0.
    - rewrite for_range_S, IH by lia. unfold predictVisibleStep.
      destruct (lookup_lt_is_Some_2 ks n) as [k Hk]; [lia|].
      assert (Hpre : length ((fun k => if isVisible m k then predict k else k)
                               <$> take n ks) = n).
      { rewrite length_fmap, length_take. lia. }
      rewrite lookup_app_r, Hpre, Nat.sub_diag, lookup_drop, Nat.add_0_r, Hk by lia.
      rewrite (take_S_r ks n k Hk), fmap_app, filter_app, fmap_app. simpl.
      rewrite (drop_S ks k n Hk).
      destruct (isVisible m k) eqn:Hv.
      + rewrite filter_cons_True by done. simpl. f_equal.
        rewrite <- Hpre at 1.
        rewrite insert_app_r_alt, Nat.sub_diag by lia. simpl.
        by rewrite <- app_assoc.
      + rewrite filter_cons_False by (rewrite Hv; done). simpl.
        by rewrite app_nil_r, <- app_assoc. }
  rewrite Hn by lia. rewrite firstn_all, drop_all. by rewrite app_nil_r.
Qed.

Lemma isDead_false m k :
  isDead m k = false <-> getNumFramesWithoutUpdate k <= missedFramesThreshold m.
Proof. unfold isDead. rewrite Z.ltb_ge. done. Qed.

(** *** A frame without detections *)

Lemma updateNoDetections_closed m :
  updateNoDetections m
  = (set_kalmanTrackers m
       ((fun k => if isVisible m k then predict k else k)
          <$> filter (fun k => isDead m k = false)
                     (noUpdateThisFrame <$> kalmanTrackers m)),
     (fun k => Point_of_Point2f (latestPrediction (predict k)))
       <$> filter (fun k => isVisible m k = true)
                  (filter (fun k => isDead m k = false)
                          (noUpdateThisFrame <$> kalmanTrackers m))).
Proof.
  unfold updateNoDetections.
  rewrite markAndEvict_closed, take_0, drop_0 by lia. simpl.
  by rewrite predictVisible_closed.
Qed.

(** *** A frame with detections, stage by stage *)

Section Stages.
Variable solver : AssignmentProblemSolver.
Variable m : MultiObjectTracker KF.
Variable mc : list Point2f.
Variable rects : list Rect.

Lemma costs_length : length (costs m mc) = length (trackersAtSolve m mc).
Proof. unfold costs, costMatrix, predictions. by rewrite !length_fmap. Qed.

Lemma costs_row (i : nat) row : costs m mc !! i = Some row -> length row = length mc.
Proof.
  unfold costs, costMatrix. rewrite list_lookup_fmap.
  destruct (predictions _ !! i); simpl; [|done].
  intros [= <-]. by rewrite length_fmap.
Qed.

Lemma solved_length : length (solved solver m mc) = length (trackersAtSolve m mc).
Proof. unfold solved. by rewrite Solve_size, costs_length. Qed.

Lemma gated_assignment_length :
  length (gs_assignment (gated solver m mc)) = length (trackersAtSolve m mc).
Proof. unfold gated. by rewrite gate_assignment, length_imap, solved_length. Qed.

Lemma afterOcclusion_closed :
  afterOcclusion solver m mc rects
  = imap (fun i k => tolerate rects (gs_assignment (gated solver m mc)) i
                       (markUnassigned (solved solver m mc) i k))
         (trackersAtSolve m mc).
Proof.
  unfold afterOcclusion. rewrite occlusionPass_closed.
  unfold gated at 2. rewrite gate_trackers. apply list_eq. intros i.
  rewrite !list_lookup_imap. by destruct (_ !! i).
Qed.

Lemma afterOcclusion_length :
  length (afterOcclusion solver m mc rects) = length (trackersAtSolve m mc).
Proof. by rewrite afterOcclusion_closed, length_imap. Qed.

Lemma afterEviction_closed :
  afterEviction solver m mc rects
  = ((survivors m (afterOcclusion solver m mc rects)
                  (gs_assignment (gated solver m mc))).*1,
     (survivors m (afterOcclusion solver m mc rects)
                  (gs_assignment (gated solver m mc))).*2).
Proof.
  unfold afterEviction. rewrite evictDead_closed.
  - by rewrite !drop_0.
  - by rewrite gated_assignment_length, afterOcclusion_length.
  - lia.
Qed.

Lemma afterUpdate_closed :
  afterUpdate solver m mc rects
  = ((fun p => updateTracker mc p.2 p.1)
       <$> survivors m (afterOcclusion solver m mc rects)
                       (gs_assignment (gated solver m mc)))
    ++ newborns mc (born solver m mc rects).
Proof.
  unfold afterUpdate, afterBirths.
  rewrite updateFilters_closed, createNewTrackers_closed, imap_app.
  rewrite afterEviction_closed. simpl.
  set (sv := survivors m _ _). f_equal.
  - apply list_eq. intros i.
    rewrite list_lookup_imap, !list_lookup_fmap. unfold updateAt.
    rewrite list_lookup_fmap. by destruct (sv !! i) as [[k a]|].
  - apply list_eq. intros i. rewrite list_lookup_imap.
    destruct (_ !! i); simpl; [|done]. unfold updateAt.
    rewrite lookup_ge_None_2; [done|]. rewrite !length_fmap. lia.
Qed.

Lemma update_detections :
  mc <> [] ->
  update solver m mc rects
  = (set_kalmanTrackers m (afterUpdate solver m mc rects),
     emitPredictions m (afterUpdate solver m mc rects)).
Proof. unfold update, updateWithDetections. by destruct mc. Qed.

Lemma survivors_lookup ks assignment (i : nat) k a :
  ks !! i = Some k -> assignment !! i = Some a -> isDead m k = false ->
  survivors m ks assignment !! survivorRank m ks assignment i = Some (k, a).
Proof.
  intros Hk Ha Halive. unfold survivorRank, survivors.
  rewrite <- zip_with_take.
  apply (filter_lookup_rank (fun p => isDead m p.1 = false)); [|done].
  by apply lookup_zip_Some.
Qed.

(** A tracker that outlives the eviction pass keeps its assignment entry
    and is updated once, in its new slot. *)
Lemma survivor_updated (i : nat) k a :
  afterOcclusion solver m mc rects !! i = Some k ->
  gs_assignment (gated solver m mc) !! i = Some a ->
  isDead m k = false ->
  let r := survivorRank m (afterOcclusion solver m mc rects)
                          (gs_assignment (gated solver m mc)) i in
  (afterEviction solver m mc rects).1 !! r = Some k
  /\ (afterEviction solver m mc rects).2 !! r = Some a
  /\ afterUpdate solver m mc rects !! r = Some (updateTracker mc a k).
Proof.
  intros Hk Ha Halive r.
  pose proof (survivors_lookup _ _ i k a Hk Ha Halive) as Hs. fold r in Hs.
  rewrite afterEviction_closed, afterUpdate_closed. simpl.
  rewrite !list_lookup_fmap, Hs. simpl. repeat split.
  rewrite lookup_app_l.
  - by rewrite list_lookup_fmap, Hs.
  - rewrite length_fmap. by eapply lookup_lt_Some.
Qed.

(** The counter after the filter-update step. *)
Lemma updateTracker_missed a k :
  getNumFramesWithoutUpdate (updateTracker mc a k) = 0
  \/ getNumFramesWithoutUpdate (updateTracker mc a k) = getNumFramesWithoutUpdate k.
Proof.
  unfold updateTracker. destruct (negb (a =? -1)).
  - destruct (mc !! Z.to_nat a); [by left | by right].
  - by right.
Qed.

Lemma newborns_fresh centers t :
  t ∈ newborns mc centers -> exists c, c ∈ mc /\ t = KalmanTracker_new_default c.
Proof.
  unfold newborns. rewrite list_elem_of_omap. intros (j & _ & Hj).
  destruct (mc !! j) as [c|] eqn:Hc; simpl in Hj; [|done].
  exists c. split; [by eapply list_elem_of_lookup_2 | congruence].
Qed.

(** The solver's contract carries through the gate: every surviving
    entry is [-1] or the index of a detection. *)
Lemma gated_entry_range (i : nat) a :
  gs_assignment (gated solver m mc) !! i = Some a ->
  a = -1 \/ exists c, mc !! Z.to_nat a = Some c.
Proof.
  unfold gated. rewrite gate_assignment, list_lookup_imap.
  destruct (solved solver m mc !! i) as [a0|] eqn:Ha0; simpl; [|done].
  intros [= <-]. unfold gatedEntry.
  destruct (negb (a0 =? -1) && _); [by left|].
  assert (is_Some (costs m mc !! i)) as [row Hrow].
  { apply lookup_lt_is_Some. apply lookup_lt_Some in Ha0.
    by rewrite <- (Solve_size solver). }
  destruct (Solve_range solver _ _ _ _ Ha0 Hrow) as [?|Hr]; [by left|].
  right. apply lookup_lt_is_Some. rewrite (costs_row i row Hrow) in Hr. lia.
Qed.

Lemma update_pool :
  mc <> [] ->
  kalmanTrackers (update solver m mc rects).1 = afterUpdate solver m mc rects.
Proof. intros Hmc. by rewrite update_detections. Qed.

(** A detection is born exactly when no surviving entry names it. *)
Lemma born_spec (j : nat) :
  j ∈ born solver m mc rects
  <-> (j < length mc)%nat /\ Z.of_nat j ∉ (afterEviction solver m mc rects).2.
Proof.
  unfold born, centersWithoutKalman.
  rewrite list_elem_of_filter, elem_of_seq, <- not_true_iff_false, existsb_exists.
  split.
  - intros [Hno Hj]. split; [lia|]. intros Hin. apply Hno.
    exists (Z.of_nat j). split; [by apply list_elem_of_In | apply Z.eqb_refl].
  - intros [Hj Hno]. split; [|lia]. intros (a & Hin & Ha).
    apply Z.eqb_eq in Ha. subst a. by apply Hno, list_elem_of_In.
Qed.

Lemma newborns_born (j : nat) c :
  j ∈ born solver m mc rects -> mc !! j = Some c ->
  KalmanTracker_new_default c ∈ afterUpdate solver m mc rects.
Proof.
  intros Hj Hc. rewrite afterUpdate_closed, elem_of_app. right.
  unfold newborns. apply list_elem_of_omap. exists j. by rewrite Hc.
Qed.

Lemma newborns_length :
  length (newborns mc (born solver m mc rects))
  = length (born solver m mc rects).
Proof.
  assert (Hall : forall j, j ∈ born solver m mc rects -> is_Some (mc !! j)).
  { intros j Hj. apply born_spec in Hj as [Hlt _]. by apply lookup_lt_is_Some. }
  unfold newborns. induction (born solver m mc rects) as [|j js IH]; [done|].
  simpl. destruct (Hall j ltac:(by left)) as [c Hc]. rewrite Hc. simpl.
  f_equal. apply IH. intros. apply Hall. by right.
Qed.

Lemma tolerated (i : nat) k :
  gs_assignment (gated solver m mc) !! i = Some (-1) ->
  gs_trackers (gated solver m mc) !! i = Some k ->
  afterOcclusion solver m mc rects !! i
  = Some (if insideSomeBox rects k then gotUpdate k else k).
Proof.
  intros Ha Hk. unfold afterOcclusion.
  rewrite occlusionPass_closed, list_lookup_imap, Hk. simpl.
  unfold tolerate. rewrite Ha. simpl. by destruct (insideSomeBox rects k).
Qed.

End Stages.
End TrackerFacts.

(** ** The size filter and the centroid step *)

Section ContourFacts.
Context `{!ContourCV} `{!OpenCV}.
Variable sets : DisjointSets.
Variable this : ContourFinder.

Lemma trunc_floor (q : Q) : (0 <= q)%Q -> trunc q = Qfloor q.
Proof.
  destruct q as [n d]. unfold Qle, trunc. simpl. intros Hn.
  apply Z.quot_div_nonneg; lia.
Qed.

Lemma trunc_nonneg (q : Q) : (0 <= q)%Q -> 0 <= trunc q.
Proof.
  destruct q as [n d]. unfold Qle, trunc. simpl. intros Hn.
  apply Z.quot_pos; lia.
Qed.

Lemma trunc_inject_Z (z : Z) : trunc (inject_Z z) = z.
Proof. unfold trunc. simpl. apply Z.quot_1_r. Qed.

Lemma trunc_opp (q : Q) : trunc (- q) = - trunc q.
Proof. destruct q as [n d]. unfold trunc. simpl. apply Z.quot_opp_l. lia. Qed.

Lemma trunc_Qeq (p q : Q) : (p == q)%Q -> trunc p = trunc q.
Proof.
  intros Hpq. destruct (Qlt_le_dec p 0) as [Hp|Hp].
  - assert (Hp' : (0 <= - p)%Q).
    { apply Qlt_le_weak in Hp. apply Qopp_le_compat in Hp. exact Hp. }
    assert (Hq' : (0 <= - q)%Q) by (by rewrite <- Hpq).
    rewrite <- (Z.opp_involutive (trunc p)), <- (Z.opp_involutive (trunc q)).
    rewrite <- (trunc_opp p), <- (trunc_opp q).
    rewrite (trunc_floor _ Hp'), (trunc_floor _ Hq'). by rewrite Hpq.
  - rewrite !trunc_floor; [by rewrite Hpq | by rewrite <- Hpq | done].
Qed.

Lemma trunc_le (q : Q) : (0 <= q)%Q -> (inject_Z (trunc q) <= q)%Q.
Proof. intros Hq. rewrite trunc_floor by done. apply Qfloor_le. Qed.

Lemma trunc_mono (p q : Q) : (0 <= p)%Q -> (p <= q)%Q -> trunc p <= trunc q.
Proof.
  intros Hp Hpq. rewrite !trunc_floor; [by apply Qfloor_resp_le | | done].
  by eapply Qle_trans.
Qed.

Lemma trunc_Qmax (p q : Q) :
  (0 <= p)%Q -> (0 <= q)%Q -> trunc (Qmax p q) = Z.max (trunc p) (trunc q).
Proof.
  intros Hp Hq. unfold Qmax. destruct (Qle_bool p q) eqn:E.
  - apply Qle_bool_iff, (trunc_mono _ _ Hp) in E. lia.
  - apply Qle_bool_false_lt, Qlt_le_weak, (trunc_mono _ _ Hq) in E. lia.
Qed.

Lemma fitsInt_spec (q : Q) : fitsInt q = true <-> INT_MIN <= trunc q <= INT_MAX.
Proof. unfold fitsInt. rewrite andb_true_iff, !Z.leb_le. done. Qed.


(** Within the range the conversion is the truncation. *)
Lemma to_int_fits (q : Q) : fitsInt q = true -> to_int q = trunc q.
Proof. unfold to_int. by intros ->. Qed.


Lemma to_int_range (q : Q) : INT_MIN <= to_int q <= INT_MAX.
Proof.
  unfold to_int. destruct (fitsInt q) eqn:E.
  - by apply fitsInt_spec.
  - unfold INT_MIN, INT_MAX. lia.
Qed.


(** Whatever the range, the conversion of a value that is not negative
    does not exceed it, and that of a value that is not positive is not
    positive. *)
Lemma to_int_upper (q : Q) : (0 <= q)%Q -> (inject_Z (to_int q) <= q)%Q.
Proof.
  intros Hq. unfold to_int. destruct (fitsInt q); [by apply trunc_le|].
  eapply Qle_trans; [|exact Hq]. done.
Qed.

Lemma to_int_nonpos (q : Q) : (q <= 0)%Q -> to_int q <= 0.
Proof.
  intros Hq. unfold to_int. destruct (fitsInt q); [|done].
  assert (Hq' : (0 <= - q)%Q) by (apply Qopp_le_compat in Hq; exact Hq).
  pose proof (trunc_nonneg _ Hq') as Hn. rewrite trunc_opp in Hn. lia.
Qed.

Lemma Qmult_nonneg_nonpos (f x : Q) : (0 <= f)%Q -> (x <= 0)%Q -> (f * x <= 0)%Q.
Proof.
  destruct f as [fn fd], x as [xn xd]. unfold Qle. simpl. nia.
Qed.

Lemma Qmax_nonneg (p q : Q) : (0 <= q)%Q -> (0 <= p)%Q -> (0 <= Qmax p q)%Q.
Proof. intros Hq Hp. unfold Qmax. by destruct (Qle_bool p q). Qed.

Lemma Qmax_ge_r (p q : Q) : (q <= Qmax p q)%Q.
Proof.
  unfold Qmax. destruct (Qle_bool p q) eqn:E; [apply Qle_refl|].
  by apply Qle_bool_false_lt, Qlt_le_weak in E.
Qed.

Lemma Qmax_lub (p q b : Q) : (p <= b)%Q -> (q <= b)%Q -> (Qmax p q <= b)%Q.
Proof. intros Hp Hq. unfold Qmax. by destruct (Qle_bool p q). Qed.

Lemma largestArea_nonneg (contours : list Contour) : (0 <= largestArea contours)%Q.
Proof.
  unfold largestArea. induction contours as [|c cs IH]; simpl; [done|].
  apply Qmax_nonneg; [done | apply contourArea_nonneg].
Qed.

Lemma largestArea_upper (contours : list Contour) (b : Q) :
  (0 <= b)%Q -> (forall c, c ∈ contours -> (contourArea c <= b)%Q) ->
  (largestArea contours <= b)%Q.
Proof.
  intros Hb. unfold largestArea.
  induction contours as [|c cs IH]; intros Hle; simpl; [done|].
  unfold Qmax. destruct (Qle_bool _ _).
  - apply IH. intros c' Hc'. apply Hle. by right.
  - apply Hle. by left.
Qed.

Lemma largestArea_ge (contours : list Contour) (c : Contour) :
  c ∈ contours -> (contourArea c <= largestArea contours)%Q.
Proof.
  unfold largestArea. induction contours as [|c' cs IH]; intros Hc.
  - by apply elem_of_nil in Hc.
  - simpl. unfold Qmax. destruct (Qle_bool _ _) eqn:E.
    + apply Qle_bool_iff in E. apply elem_of_cons in Hc as [->|Hc]; [done|].
      by apply IH.
    + apply Qle_bool_false_lt, Qlt_le_weak in E.
      apply elem_of_cons in Hc as [->|Hc]; [apply Qle_refl|].
      eapply Qle_trans; [by apply IH | done].
Qed.

(** While every area is within the range of [int], the [int] accumulator
    of line 42 holds the largest area, truncated. *)
Lemma maxArea_largestArea (contours : list Contour) :
  areasFit contours ->
  maxArea (contourArea <$> contours) = inject_Z (trunc (largestArea contours)).
Proof.
  intros Hfit. unfold maxArea. f_equal.
  assert (Hacc : forall acc : Z, 0 <= acc <= INT_MAX ->
    foldl (fun (prevMaxArea : Z) area => to_int (Qmax (inject_Z prevMaxArea) area))
          acc (contourArea <$> contours)
    = Z.max acc (trunc (largestArea contours))).
  { unfold largestArea. revert Hfit.
    induction contours as [|c cs IH]; intros Hfit acc Hacc; simpl.
    - change (trunc 0) with 0. lia.
    - pose proof (contourArea_nonneg c) as Hc.
      pose proof (largestArea_nonneg cs) as Hcs. unfold largestArea in Hcs.
      pose proof (proj1 (fitsInt_spec _) (Hfit c ltac:(by left))) as [_ Hcmax].
      pose proof (trunc_nonneg _ Hc) as Hc0.
      assert (Hinj : (0 <= inject_Z acc)%Q)
        by (unfold Qle; simpl; lia).
      assert (Hstep : to_int (Qmax (inject_Z acc) (contourArea c))
                      = Z.max acc (trunc (contourArea c))).
      { rewrite to_int_fits.
        - by rewrite trunc_Qmax, trunc_inject_Z.
        - apply fitsInt_spec. rewrite trunc_Qmax, trunc_inject_Z by done.
          unfold INT_MIN. lia. }
      rewrite Hstep.
      rewrite IH; [|intros c' Hc'; apply Hfit; by right | lia].
      rewrite (trunc_Qmax (contourArea c)) by done.
      symmetry. apply Z.max_assoc. }
  rewrite Hacc by (unfold INT_MAX; lia).
  pose proof (trunc_nonneg _ (largestArea_nonneg contours)). lia.
Qed.

(** Whatever the range, the accumulator does not exceed a bound of the
    areas. *)
Lemma maxArea_upper (contours : list Contour) (b : Q) :
  (0 <= b)%Q -> (forall c, c ∈ contours -> (contourArea c <= b)%Q) ->
  (maxArea (contourArea <$> contours) <= b)%Q.
Proof.
  intros Hb. unfold maxArea.
  assert (Hacc : forall acc : Z, (inject_Z acc <= b)%Q ->
    (forall c, c ∈ contours -> (contourArea c <= b)%Q) ->
    (inject_Z (foldl (fun (prevMaxArea : Z) area =>
                        to_int (Qmax (inject_Z prevMaxArea) area))
                     acc (contourArea <$> contours)) <= b)%Q).
  { induction contours as [|c cs IH]; intros acc Hacc Hle; simpl; [done|].
    apply IH; [|intros c' Hc'; apply Hle; by right].
    eapply Qle_trans; [apply to_int_upper|].
    - eapply Qle_trans; [apply contourArea_nonneg | apply Qmax_ge_r].
    - apply Qmax_lub; [done | apply Hle; by left]. }
  intros Hle. by apply Hacc.
Qed.

Lemma filterOutBadContours_spec (contours : list Contour) (c : Contour) :
  c ∈ filterOutBadContours this contours
  <-> c ∈ contours /\ (inject_Z (threshold this contours) < contourArea c)%Q.
Proof.
  unfold filterOutBadContours. rewrite list_elem_of_filter, Qle_bool_false_lt.
  tauto.
Qed.

Lemma maxArea_nonneg (contours : list Contour) :
  areasFit contours -> (0 <= maxArea (contourArea <$> contours))%Q.
Proof.
  intros Hfit. rewrite maxArea_largestArea by done. unfold Qle. simpl.
  pose proof (trunc_nonneg _ (largestArea_nonneg contours)). lia.
Qed.

Lemma threshold_nonneg (contours : list Contour) :
  (0 <= contourSizeThreshold this)%Q ->
  areasFit contours ->
  fitsInt (contourSizeThreshold this * maxArea (contourArea <$> contours)) = true ->
  0 <= threshold this contours.
Proof.
  intros Hf Hfit Hprod. unfold threshold. rewrite to_int_fits by done.
  apply trunc_nonneg, Qmult_le_0_compat; [done | by apply maxArea_nonneg].
Qed.


(** *** The union-find pass computes the closure *)

Lemma closure_ext (P P' : nat -> nat -> Prop) (i j : nat) :
  (forall x y, P x y -> clos_refl_sym_trans nat P' x y) ->
  clos_refl_sym_trans nat P i j -> clos_refl_sym_trans nat P' i j.
Proof.
  intros Hsub Hc. induction Hc as [x y Hxy|x|x y _ IH|x y z _ IH1 _ IH2].
  - by apply Hsub.
  - apply rst_refl.
  - by apply rst_sym.
  - by eapply rst_trans.
Qed.

Lemma represents_ext (n : nat) (s : dsets sets) (P P' : nat -> nat -> Prop) :
  (forall x y, P x y -> clos_refl_sym_trans nat P' x y) ->
  (forall x y, P' x y -> clos_refl_sym_trans nat P x y) ->
  represents sets n s P -> represents sets n s P'.
Proof.
  intros H1 H2 [Hwf Hrep]. split; [done|]. intros i j Hi Hj.
  rewrite (Hrep i j Hi Hj). split; by apply closure_ext.
Qed.

Lemma represents_new (n : nat) : represents sets n (ds_new sets n) (fun _ _ => False).
Proof.
  split; [apply ds_new_wf|]. intros i j Hi Hj.
  rewrite !ds_new_FindSet by done. split.
  - intros ->. apply rst_refl.
  - intros Hc. clear Hi Hj.
    induction Hc as [x y []|x|x y _ IH|x y z _ IH1 _ IH2]; congruence.
Qed.

Lemma represents_Union (n a b : nat) (s : dsets sets) (P : nat -> nat -> Prop) :
  (a < n)%nat -> (b < n)%nat -> represents sets n s P ->
  represents sets n (ds_Union sets a b s) (fun x y => P x y \/ (x = a /\ y = b)).
Proof.
  intros Ha Hb [Hwf Hrep]. split; [by apply ds_Union_wf|].
  intros i j Hi Hj.
  rewrite (ds_Union_FindSet sets n a b s i j) by done.
  rewrite (Hrep i j), (Hrep i a), (Hrep j b), (Hrep i b), (Hrep j a) by done.
  set (E := clos_refl_sym_trans nat P).
  assert (Hrefl : forall x, E x x) by (intros; apply rst_refl).
  assert (Hsym : forall x y, E x y -> E y x) by (intros; by apply rst_sym).
  assert (Htrans : forall x y z, E x y -> E y z -> E x z)
    by (intros; by eapply rst_trans).
  split.
  - assert (Hin : forall x y, E x y ->
      clos_refl_sym_trans nat (fun x y => P x y \/ x = a /\ y = b) x y).
    { intros x y. apply closure_ext. intros. apply rst_step. by left. }
    assert (Hab : clos_refl_sym_trans nat (fun x y => P x y \/ x = a /\ y = b) a b)
      by (apply rst_step; by right).
    intros [Hij|[[Hia Hjb]|[Hib Hja]]].
    + by apply Hin.
    + eapply rst_trans; [by apply Hin|].
      eapply rst_trans; [done|]. by apply Hin, Hsym.
    + eapply rst_trans; [by apply Hin|].
      eapply rst_trans; [by apply rst_sym|]. by apply Hin, Hsym.
  - intros Hc. clear Hi Hj.
    induction Hc as [x y [Hxy|[-> ->]]|x|x y _ IH|x y z _ IH1 _ IH2].
    + left. by apply rst_step.
    + right. left. by split.
    + by left.
    + destruct IH as [?|[[??]|[??]]]; eauto 6.
    + destruct IH1 as [?|[[??]|[??]]], IH2 as [?|[[??]|[??]]]; eauto 8.
Qed.


Section UnionLoops.
Variable n : nat.
Variable massCenters : list Centroid.
Variable boundingBoxes : list Rect.

Let close (x y : nat) : Prop :=
  x <> y /\ closeEnough this massCenters boundingBoxes x y = true.

Let body (i j : nat) (s : dsets sets) : dsets sets :=
  if (i =? j)%nat then s
  else if closeEnough this massCenters boundingBoxes i j
       then ds_Union sets i j s else s.

Lemma inner_loop (i : nat) (P : nat -> nat -> Prop) (s : dsets sets) (j : nat) :
  (i < n)%nat -> (j <= n)%nat -> represents sets n s P ->
  represents sets n (for_range j (body i) s)
    (fun x y => P x y \/ (x = i /\ (y < j)%nat /\ close x y)).
Proof.
  intros Hi. induction j as [|j IH]; intros Hj Hrep.
  - unfold for_range. simpl. eapply represents_ext; [| |exact Hrep].
    + intros x y Hxy. apply rst_step. by left.
    + intros x y [Hxy|(_ & Hlt & _)]; [by apply rst_step | lia].
  - rewrite for_range_S. specialize (IH ltac:(lia) Hrep).
    unfold body at 1. destruct (i =? j)%nat eqn:Eij.
    { apply Nat.eqb_eq in Eij. eapply represents_ext; [| |exact IH].
      - intros x y [Hxy|(Hx & Hlt & Hc)]; apply rst_step; [by left|].
        right. repeat split; [done | lia | apply Hc | apply Hc].
      - intros x y [Hxy|(Hx & Hlt & Hne & Hc)]; apply rst_step; [by left|].
        right. repeat split; [done | lia | done | done]. }
    apply Nat.eqb_neq in Eij.
    destruct (closeEnough this massCenters boundingBoxes i j) eqn:Ec.
    + eapply represents_ext; [| |apply (represents_Union n i j); [lia | lia | exact IH]].
      * intros x y [[Hxy|(Hx & Hlt & Hc)]|[-> ->]]; apply rst_step.
        -- by left.
        -- right. repeat split; [done | lia | apply Hc | apply Hc].
        -- right. repeat split; [lia | done | done].
      * intros x y [Hxy|(-> & Hlt & Hne & Hc)]; apply rst_step.
        -- left. by left.
        -- destruct (decide (y = j)) as [->|Hyj]; [by right|].
           left. right. repeat split; [lia | done | done].
    + eapply represents_ext; [| |exact IH].
      * intros x y [Hxy|(Hx & Hlt & Hc)]; apply rst_step; [by left|].
        right. repeat split; [done | lia | apply Hc | apply Hc].
      * intros x y [Hxy|(-> & Hlt & Hne & Hc)]; apply rst_step; [by left|].
        right. repeat split; [| done | done].
        destruct (decide (y = j)) as [->|Hyj]; [congruence | lia].
Qed.

Lemma outer_loop (i : nat) :
  (i <= n)%nat ->
  represents sets n
    (for_range i (fun i s => for_range n (body i) s) (ds_new sets n))
    (fun x y => (x < i)%nat /\ (y < n)%nat /\ close x y).
Proof.
  induction i as [|i IH]; intros Hi.
  - unfold for_range. simpl. eapply represents_ext; [| |apply represents_new].
    + by intros x y [].
    + intros x y [Hlt _]. lia.
  - rewrite for_range_S. specialize (IH ltac:(lia)).
    pose proof (inner_loop i _ _ n ltac:(lia) ltac:(lia) IH) as Hin.
    eapply represents_ext; [| |exact Hin].
    + intros x y [(Hx & Hy & Hc)|(-> & Hy & Hc)]; apply rst_step;
        repeat split; solve [lia | apply Hc].
    + intros x y (Hx & Hy & Hc). apply rst_step.
      destruct (decide (x = i)) as [->|Hxi].
      * right. auto.
      * left. repeat split; solve [lia | apply Hc].
Qed.

(** After lines 105-121 two contours have the same representative exactly
    when the closure of the proximity relation relates them. *)
Lemma unionClose_represents :
  represents sets n (unionClose sets this n massCenters boundingBoxes)
               (proximate this n massCenters boundingBoxes).
Proof.
  eapply represents_ext; [| |apply (outer_loop n); lia].
  - intros x y (Hx & Hy & Hc). apply rst_step. unfold proximate.
    repeat split; solve [lia | apply Hc].
  - intros x y (Hx & Hy & Hc).
    destruct (decide (x = y)) as [->|Hne]; [apply rst_refl|].
    apply rst_step. unfold close. auto.
Qed.

End UnionLoops.

(** *** Grouping and concatenation *)

Lemma members_S (s : dsets sets) (n r : nat) :
  members sets s (S n) r
  = members sets s n r ++ (if decide (ds_FindSet sets s n = r) then [n] else []).
Proof.
  unfold members. rewrite seq_S, filter_app. simpl. by f_equal.
Qed.

Lemma members_spec (s : dsets sets) (n r j : nat) :
  j ∈ members sets s n r <-> (j < n)%nat /\ ds_FindSet sets s j = r.
Proof.
  unfold members. rewrite list_elem_of_filter, elem_of_seq. intuition lia.
Qed.

(** Lines 125-131 file every index under its representative, in
    increasing order. *)
Lemma collectItems_lookup (s : dsets sets) (n r : nat) :
  collectItems sets n s !! r
  = match members sets s n r with [] => None | ms => Some ms end.
Proof.
  unfold collectItems. induction n as [|n IH].
  - unfold for_range. simpl. by rewrite lookup_empty.
  - rewrite for_range_S, members_S. unfold collectStep at 1.
    set (items := for_range n (collectStep sets s) ∅) in *.
    destruct (decide (ds_FindSet sets s n = r)) as [Hr|Hr].
    + rewrite Hr, lookup_alter_eq.
      destruct (items !! r) as [v|] eqn:Hv.
      * rewrite Hv. simpl. destruct (members sets s n r); [done|].
        by injection IH as ->.
      * rewrite lookup_insert_eq. simpl.
        by destruct (members sets s n r).
    + rewrite lookup_alter_ne by done. rewrite app_nil_r.
      destruct (items !! ds_FindSet sets s n); [done|].
      by rewrite lookup_insert_ne.
Qed.

Lemma foldl_append (contours : list Contour) (init : Contour) (rest : list nat) :
  foldl (fun aggregate i => aggregate ++ contourAt contours i) init rest
  = init ++ concatenated contours rest.
Proof.
  unfold concatenated. revert init.
  induction rest as [|i rest IH]; intros init; simpl.
  - by rewrite app_nil_r.
  - by rewrite IH, app_assoc.
Qed.

(** The contour pushed for a set is the concatenation of its members'
    point sequences. For a set of one contour line 138 indexes with the
    representative, which is that contour's own index. *)
Lemma mergeGroup_members (contours : list Contour) (s : dsets sets) (r : nat) ms :
  ds_wf sets (length contours) s ->
  collectItems sets (length contours) s !! r = Some ms ->
  ms = members sets s (length contours) r
  /\ mergeGroup contours (r, ms) = concatenated contours ms.
Proof.
  intros Hwf. rewrite collectItems_lookup.
  destruct (members sets s (length contours) r) as [|first rest] eqn:Hms; [done|].
  intros [= <-]. split; [done|]. unfold mergeGroup. simpl.
  destruct rest as [|second rest]; simpl.
  - assert (Hfirst : first ∈ members sets s (length contours) r)
      by (rewrite Hms; by left).
    apply members_spec in Hfirst as [Hlt Hfind].
    destruct (ds_FindSet_member sets _ s first Hwf Hlt) as [Hrlt Hidem].
    assert (Hr : r ∈ members sets s (length contours) r).
    { apply members_spec. rewrite <- Hfind at 1 2. by rewrite Hidem. }
    rewrite Hms in Hr. apply list_elem_of_singleton in Hr as ->.
    unfold concatenated. simpl. by rewrite app_nil_r.
  - rewrite foldl_append. unfold concatenated. simpl. by rewrite app_assoc.
Qed.

Lemma mergeContours_groups (contours : list Contour)
    (massCenters : list Centroid) (boundingBoxes : list Rect) :
  let n := length contours in
  let s := unionClose sets this n massCenters boundingBoxes in
  let roots := (map_to_list (collectItems sets n s)).*1 in
  NoDup roots
  /\ (forall r, r ∈ roots <-> exists i, (i < n)%nat /\ ds_FindSet sets s i = r)
  /\ mergeContours sets this contours massCenters boundingBoxes
     = (fun r => concatenated contours (members sets s n r)) <$> roots.
Proof.
  intros n s roots.
  pose proof (unionClose_represents n massCenters boundingBoxes) as [Hwf _].
  fold s in Hwf. split; [apply NoDup_fst_map_to_list|]. split.
  - intros r. unfold roots. rewrite list_elem_of_fmap. split.
    + intros ([r' ms] & -> & Hin). apply elem_of_map_to_list in Hin. simpl.
      rewrite collectItems_lookup in Hin.
      destruct (members sets s n r') as [|i ms'] eqn:Hms; [done|].
      exists i. apply members_spec. rewrite Hms. by left.
    + intros (i & Hi & Hr).
      assert (Hmem : i ∈ members sets s n r) by by apply members_spec.
      destruct (members sets s n r) as [|i0 ms'] eqn:Hms; [by inversion Hmem|].
      exists (r, i0 :: ms'). split; [done|]. apply elem_of_map_to_list.
      by rewrite collectItems_lookup, Hms.
  - unfold mergeContours, roots. fold n. fold s. rewrite <- list_fmap_compose.
    apply list_fmap_ext. intros k [r ms] Hk. simpl.
    apply list_elem_of_lookup_2, elem_of_map_to_list in Hk.
    destruct (mergeGroup_members contours s r ms Hwf Hk) as [Hms ->].
    by rewrite Hms.
Qed.

End ContourFacts.

(** ** Properties of [MultiObjectTracker::update] *)

Section TrackerClaims.
Context {KF : Type} `{!KalmanFilterOps KF} `{!OpenCV} `{!SaturateCast}.
Variable solver : AssignmentProblemSolver.
Variable m : MultiObjectTracker KF.
Variable rects : list Rect.

(** C1. Gating, as the code does it. When the solver pairs tracker [i]
    with detection [a] and the cost exceeds [distanceThreshold] times
    [frameDimension], the pairing is cancelled and, if no surviving entry
    names [a], a tracker seeded at that centroid is in the pool after the
    call. The tracker's miss counter is left as it was: the loop records
    [i] in [kalmansWithoutCenters] and does not call [noUpdateThisFrame],
    so a tracker that lies in no bounding box and is not dead ends the
    frame with the counter it had. *)
Theorem gating_cancels_without_miss (mc : list Point2f) (i : nat) (a : Z)
    (k : KalmanTracker KF) :
  mc <> [] ->
  trackersAtSolve m mc !! i = Some k ->
  solved solver m mc !! i = Some a ->
  a <> -1 ->
  (distanceThreshold m * frameDimension m < costAt (costs m mc) i a)%Q ->
  gs_assignment (gated solver m mc) !! i = Some (-1)
  /\ gs_trackers (gated solver m mc) !! i = Some k
  /\ (forall c, mc !! Z.to_nat a = Some c ->
        a ∉ (afterEviction solver m mc rects).2 ->
        KalmanTracker_new_default c ∈ kalmanTrackers (update solver m mc rects).1)
  /\ (insideSomeBox rects k = false -> isDead m k = false ->
        exists t,
          kalmanTrackers (update solver m mc rects).1
            !! survivorRank m (afterOcclusion solver m mc rects)
                              (gs_assignment (gated solver m mc)) i = Some t
          /\ getNumFramesWithoutUpdate t = getNumFramesWithoutUpdate k).
Proof.
  intros Hmc Hk Ha Hne Hfar.
  assert (Hga : gs_assignment (gated solver m mc) !! i = Some (-1)).
  { unfold gated. rewrite gate_assignment, list_lookup_imap, Ha. simpl.
    unfold gatedEntry. apply Z.eqb_neq in Hne. rewrite Hne. simpl.
    apply Qgt_bool_lt in Hfar. by rewrite Hfar. }
  assert (Hgk : gs_trackers (gated solver m mc) !! i = Some k).
  { unfold gated. rewrite gate_trackers, list_lookup_imap, Hk. simpl.
    unfold markUnassigned. rewrite Ha. apply Z.eqb_neq in Hne. by rewrite Hne. }
  repeat split; [done | done | |].
  - intros c Hc Hfree. rewrite update_pool by done.
    apply (newborns_born _ _ _ _ (Z.to_nat a)); [|done].
    apply born_spec. split; [by eapply lookup_lt_Some|].
    assert (Hrow : is_Some (costs m mc !! i)).
    { apply lookup_lt_is_Some. rewrite costs_length. by eapply lookup_lt_Some. }
    destruct Hrow as [row Hrow].
    destruct (Solve_range solver _ _ _ _ Ha Hrow) as [?|Hr]; [done|].
    by rewrite Z2Nat.id by lia.
  - intros Hout Halive.
    pose proof (tolerated solver m mc rects i k Hga Hgk) as Hocc.
    rewrite Hout in Hocc.
    destruct (survivor_updated solver m mc rects i k (-1) Hocc Hga Halive)
      as (_ & _ & Hfin).
    rewrite update_pool by done. eexists. split; [exact Hfin|]. done.
Qed.

(** C2, amended. In a call with detections, every tracker that was in the
    pool when the assignment was solved (the trackers created at the start
    of the call for an empty pool included) and that survives the eviction
    pass is advanced by exactly one [predict], followed by one correction;
    the trackers born in that call for unassigned detections are appended
    as constructed, without a [predict]. In a call without detections,
    every surviving tracker whose lifetime exceeds [lifetimeThreshold] is
    advanced by exactly one [predict]. *)
Theorem predict_once_on_survivors (c0 : Point2f) (mc : list Point2f) :
  let sv := survivors m (afterOcclusion solver m (c0 :: mc) rects)
                        (gs_assignment (gated solver m (c0 :: mc))) in
  let pool := kalmanTrackers (update solver m (c0 :: mc) rects).1 in
  let alive := filter (fun k => isDead m k = false)
                      (noUpdateThisFrame <$> kalmanTrackers m) in
  (forall (i : nat) k a, sv !! i = Some (k, a) ->
     exists t c, pool !! i = Some t
       /\ kt_filter t = kf_correct c (kf_predict (kt_filter k)))
  /\ (forall (i : nat) t, (length sv <= i)%nat -> pool !! i = Some t ->
        exists c, t = KalmanTracker_new_default c)
  /\ length pool = (length sv + length (born solver m (c0 :: mc) rects))%nat
  /\ (forall (i : nat) k, alive !! i = Some k -> isVisible m k = true ->
        kalmanTrackers (update solver m [] rects).1 !! i = Some (predict k)).
Proof.
  intros sv pool alive.
  assert (Hpool : pool = ((fun p => updateTracker (c0 :: mc) p.2 p.1) <$> sv)
                         ++ newborns (c0 :: mc) (born solver m (c0 :: mc) rects)).
  { unfold pool. rewrite update_pool by done. apply afterUpdate_closed. }
  repeat split.
  - intros i k a Hi. rewrite Hpool, lookup_app_l
      by (rewrite length_fmap; by eapply lookup_lt_Some).
    rewrite list_lookup_fmap, Hi. simpl.
    assert (Hin : (k, a) ∈ zip (afterOcclusion solver m (c0 :: mc) rects)
                               (gs_assignment (gated solver m (c0 :: mc)))).
    { apply list_elem_of_lookup_2 in Hi. unfold sv, survivors in Hi.
      by apply list_elem_of_filter in Hi as [_ Hi]. }
    apply list_elem_of_lookup in Hin as [i0 Hi0].
    apply lookup_zip_Some in Hi0 as [_ Ha].
    unfold updateTracker.
    destruct (gated_entry_range solver m (c0 :: mc) i0 a Ha) as [->|[c Hc]].
    + simpl. do 2 eexists. split; reflexivity.
    + destruct (negb (a =? -1)).
      * rewrite Hc. do 2 eexists. split; reflexivity.
      * do 2 eexists. split; reflexivity.
  - intros i t Hi Ht. rewrite Hpool, lookup_app_r in Ht
      by (by rewrite length_fmap).
    apply list_elem_of_lookup_2, newborns_fresh in Ht as (c & _ & ->). by exists c.
  - by rewrite Hpool, length_app, length_fmap, newborns_length.
  - intros i k Hi Hv. unfold update. rewrite updateNoDetections_closed. simpl.
    fold alive. rewrite list_lookup_fmap, Hi. simpl. by rewrite Hv.
Qed.

(** C5. With an empty detection list the result does not depend on the
    solver, on the OpenCV primitives or on the bounding boxes (none is
    consulted); every tracker is marked with [noUpdateThisFrame], those
    whose counter then exceeds [missedFramesThreshold] are erased, the
    survivors with a lifetime above [lifetimeThreshold] are predicted and
    their predictions, converted to [cv::Point], are the output, and the
    pool holds no tracker that is not one of the marked survivors. *)
Theorem update_without_detections (cv' : OpenCV)
    (solver' : AssignmentProblemSolver) (rects' : list Rect) :
  let alive := filter (fun k => isDead m k = false)
                      (noUpdateThisFrame <$> kalmanTrackers m) in
  update solver m [] rects
  = (set_kalmanTrackers m
       ((fun k => if isVisible m k then predict k else k) <$> alive),
     (fun k => Point_of_Point2f (latestPrediction (predict k)))
       <$> filter (fun k => isVisible m k = true) alive)
  /\ @update KF _ cv' _ solver' m [] rects' = update solver m [] rects
  /\ (length (kalmanTrackers (update solver m [] rects).1)
      <= length (kalmanTrackers m))%nat.
Proof.
  intros alive.
  assert (Hclosed : forall (cv : OpenCV) sv rs,
    @update KF _ cv _ sv m [] rs
    = (set_kalmanTrackers m
         ((fun k => if isVisible m k then predict k else k) <$> alive),
       (fun k => Point_of_Point2f (latestPrediction (predict k)))
         <$> filter (fun k => isVisible m k = true) alive)).
  { intros cv sv rs. unfold update. by rewrite updateNoDetections_closed. }
  rewrite !Hclosed. repeat split. simpl.
  rewrite length_fmap. unfold alive.
  etrans; [apply length_filter|]. by rewrite length_fmap.
Qed.

(** C4, amended. Provided [missedFramesThreshold] is not negative, after
    every call every tracker in the pool has a miss counter of at most
    [missedFramesThreshold]; in a call with detections the eviction pass
    keeps exactly the trackers whose counter does not exceed the
    threshold, each still next to its own assignment entry. *)
Theorem missed_frames_within_threshold (mc : list Point2f) :
  0 <= missedFramesThreshold m ->
  Forall (fun k => getNumFramesWithoutUpdate k <= missedFramesThreshold m)
         (kalmanTrackers (update solver m mc rects).1)
  /\ (mc <> [] ->
      zip (afterEviction solver m mc rects).1 (afterEviction solver m mc rects).2
      = filter (fun p => getNumFramesWithoutUpdate p.1 <= missedFramesThreshold m)
               (zip (afterOcclusion solver m mc rects)
                    (gs_assignment (gated solver m mc)))
      /\ length (afterEviction solver m mc rects).1
         = length (afterEviction solver m mc rects).2).
Proof.
  intros Hthr. split.
  - destruct mc as [|c0 mc'] eqn:Hmc.
    + unfold update. rewrite updateNoDetections_closed. simpl.
      apply Forall_fmap, Forall_forall. intros k Hk.
      apply list_elem_of_filter in Hk as [Halive _].
      apply isDead_false in Halive. simpl. by destruct (isVisible m k).
    + rewrite update_pool, afterUpdate_closed by done.
      apply Forall_app. split.
      * apply Forall_fmap, Forall_forall. intros [k a] Hk. simpl.
        apply list_elem_of_filter in Hk as [Halive _].
        apply isDead_false in Halive. simpl in Halive.
        destruct (updateTracker_missed (c0 :: mc') a k) as [-> | ->]; done.
      * apply Forall_forall. intros t Ht.
        by apply newborns_fresh in Ht as (c & _ & ->).
  - intros _. rewrite afterEviction_closed. simpl.
    rewrite zip_fst_snd, !length_fmap. split; [|done].
    unfold survivors. apply list_filter_iff. intros [k a]. apply isDead_false.
Qed.

(** C8. In a call with detections, a tracker that is unassigned after
    gating and whose latest prediction lies in some detection's bounding
    box receives [gotUpdate]; unless a negative [missedFramesThreshold]
    evicts it, it is in the pool at the end of the frame with a miss
    counter of 0. *)
Theorem occlusion_tolerance_resets_counter (mc : list Point2f) (i : nat)
    (k : KalmanTracker KF) :
  mc <> [] ->
  gs_assignment (gated solver m mc) !! i = Some (-1) ->
  gs_trackers (gated solver m mc) !! i = Some k ->
  insideSomeBox rects k = true ->
  afterOcclusion solver m mc rects !! i = Some (gotUpdate k)
  /\ getNumFramesWithoutUpdate (gotUpdate k) = 0
  /\ (0 <= missedFramesThreshold m ->
      exists t,
        kalmanTrackers (update solver m mc rects).1
          !! survivorRank m (afterOcclusion solver m mc rects)
                            (gs_assignment (gated solver m mc)) i = Some t
        /\ getNumFramesWithoutUpdate t = 0).
Proof.
  intros Hmc Ha Hk Hin.
  pose proof (tolerated solver m mc rects i k Ha Hk) as Hocc.
  rewrite Hin in Hocc. split; [done|]. split; [done|]. intros Hthr.
  assert (Halive : isDead m (gotUpdate k) = false) by by apply isDead_false.
  destruct (survivor_updated solver m mc rects i _ _ Hocc Ha Halive)
    as (_ & _ & Hfin).
  rewrite update_pool by done. eexists. split; [exact Hfin|]. done.
Qed.

(** C9. A tracker granted occlusion tolerance keeps the assignment entry
    [-1]: in the filter-update step it is predicted and then corrected
    with its own latest prediction, no detection's centroid enters its
    filter, and [gotUpdate] has changed the miss counter only. *)
Theorem occlusion_tolerance_keeps_estimate (mc : list Point2f) (i : nat)
    (k : KalmanTracker KF) :
  mc <> [] ->
  gs_assignment (gated solver m mc) !! i = Some (-1) ->
  gs_trackers (gated solver m mc) !! i = Some k ->
  insideSomeBox rects k = true ->
  0 <= missedFramesThreshold m ->
  let r := survivorRank m (afterOcclusion solver m mc rects)
                          (gs_assignment (gated solver m mc)) i in
  kt_filter (gotUpdate k) = kt_filter k
  /\ (afterEviction solver m mc rects).2 !! r = Some (-1)
  /\ kalmanTrackers (update solver m mc rects).1 !! r
     = Some (correct_no_obs (predict (gotUpdate k)))
  /\ kt_filter (correct_no_obs (predict (gotUpdate k)))
     = kf_correct (kf_prediction (kf_predict (kt_filter k)))
                  (kf_predict (kt_filter k)).
Proof.
  intros Hmc Ha Hk Hin Hthr r.
  pose proof (tolerated solver m mc rects i k Ha Hk) as Hocc.
  rewrite Hin in Hocc.
  assert (Halive : isDead m (gotUpdate k) = false) by by apply isDead_false.
  destruct (survivor_updated solver m mc rects i _ _ Hocc Ha Halive)
    as (_ & Hent & Hfin).
  rewrite update_pool by done. repeat split; done.
Qed.

(** C10. The two birth paths. When the pool is empty at the start of a
    call with detections, one tracker per detection is constructed with
    the tracker's configured [dt] and [magnitudeOfAccelerationNoise]; when
    it is not empty, that path constructs nothing. The trackers born for
    unassigned detections are the tail of the pool after the call, each
    constructed from its centroid alone, with the constructor's default
    [dt] and magnitude. So the parameters of the trackers of the two paths
    differ whenever the configured values differ from the defaults. *)
Theorem birth_paths_parameters (mc : list Point2f) :
  mc <> [] ->
  (kalmanTrackers m = [] ->
     trackersAtSolve m mc
     = (fun c => KalmanTracker_new c (dt m) (magnitudeOfAccelerationNoise m)) <$> mc)
  /\ (kalmanTrackers m <> [] -> trackersAtSolve m mc = kalmanTrackers m)
  /\ (exists older,
        kalmanTrackers (update solver m mc rects).1
        = older ++ newborns mc (born solver m mc rects)
        /\ length older = length (afterEviction solver m mc rects).1)
  /\ Forall (fun t => exists c,
               t = KalmanTracker_new c default_dt default_magnitudeOfAccelerationNoise)
            (newborns mc (born solver m mc rects))
  /\ (forall c c',
        ~ (dt m == default_dt
           /\ magnitudeOfAccelerationNoise m == default_magnitudeOfAccelerationNoise)%Q ->
        let t1 := KalmanTracker_new c (dt m) (magnitudeOfAccelerationNoise m) in
        let t2 := KalmanTracker_new_default c' in
        ~ (kt_dt t1 == kt_dt t2
           /\ kt_magnitudeOfAccelerationNoise t1 == kt_magnitudeOfAccelerationNoise t2)%Q).
Proof.
  intros Hmc. split; [|split; [|split; [|split]]].
  - apply createInitialTrackers_empty.
  - apply createInitialTrackers_nonempty.
  - rewrite update_pool, afterUpdate_closed by done. eexists. split; [done|].
    rewrite afterEviction_closed. simpl. by rewrite !length_fmap.
  - apply Forall_forall. intros t Ht.
    apply newborns_fresh in Ht as (c & _ & ->). by exists c.
  - intros c c' Hdiff t1 t2. done.
Qed.

End TrackerClaims.

(** ** Properties of [ContourFinder] *)

Section ContourClaims.
Context `{!ContourCV} `{!OpenCV}.
Variable sets : DisjointSets.
Variable this : ContourFinder.

(** C3, amended. When [contourSizeThreshold] is not negative, and the
    areas and the product of line 50 are within the range of [int], the
    size filter drops every contour of area zero, so every contour that
    reaches the first centroid computation has a positive area; [m00]
    being that area, its mass center is finite. The centroid step itself
    skips nothing: it pushes one mass center and one bounding box per
    contour, the center being [m10/m00, m01/m00] whatever [m00] is, and a
    contour with [m00 == 0] gets a center that is not finite. *)
Theorem zero_area_dropped_by_filter_only (contours : list Contour) :
  (0 <= contourSizeThreshold this)%Q ->
  areasFit contours ->
  fitsInt (contourSizeThreshold this * maxArea (contourArea <$> contours)) = true ->
  (forall c, (contourArea c == 0)%Q -> c ∉ filterOutBadContours this contours)
  /\ (forall c, c ∈ filterOutBadContours this contours -> (0 < contourArea c)%Q)
  /\ ((forall c, (m00 (moments c) == contourArea c)%Q) ->
      forall c, c ∈ filterOutBadContours this contours ->
        massCenter c
        = mkCentroid (Finite (m10 (moments c) / m00 (moments c)))
                     (Finite (m01 (moments c) / m00 (moments c))))
  /\ (forall cs : list Contour,
        length (getCentersAndBoundingBoxes cs).1 = length cs
        /\ length (getCentersAndBoundingBoxes cs).2 = length cs
        /\ forall (i : nat) c, cs !! i = Some c ->
             (getCentersAndBoundingBoxes cs).1 !! i
             = Some (mkCentroid (fdiv (m10 (moments c)) (m00 (moments c)))
                                (fdiv (m01 (moments c)) (m00 (moments c))))
             /\ ((m00 (moments c) == 0)%Q ->
                 (getCentersAndBoundingBoxes cs).1 !! i
                 = Some (mkCentroid NotFinite NotFinite))).
Proof.
  intros Hf Hfit Hprod.
  assert (Hpos : forall c, c ∈ filterOutBadContours this contours ->
                           (0 < contourArea c)%Q).
  { intros c Hc. apply filterOutBadContours_spec in Hc as [_ Hc].
    eapply Qle_lt_trans; [|exact Hc].
    pose proof (threshold_nonneg this contours Hf Hfit Hprod).
    unfold Qle. simpl. lia. }
  split; [|split; [done|split]].
  - intros c Hzero Hc. apply Hpos in Hc. rewrite Hzero in Hc.
    by apply Qlt_irrefl in Hc.
  - intros Hm00 c Hc. apply Hpos in Hc. rewrite <- (Hm00 c) in Hc.
    unfold massCenter, fdiv.
    destruct (Qeq_bool (m00 (moments c)) 0) eqn:E; [|done].
    apply Qeq_bool_iff in E. rewrite E in Hc. by apply Qlt_irrefl in Hc.
  - intros cs. unfold getCentersAndBoundingBoxes. simpl.
    rewrite !length_fmap. split; [done|]. split; [done|].
    intros i c Hi. rewrite list_lookup_fmap, Hi. simpl. split; [done|].
    intros Hm. unfold massCenter, fdiv.
    apply Qeq_bool_iff in Hm. by rewrite Hm.
Qed.


(** C7. The merge pass. After the union loops two contours have the same
    representative exactly when the closure of the centroid-proximity
    relation relates them; the output holds one contour per class, the
    concatenation of the member point sequences in index order, which for
    a class of one contour is that contour unchanged; and [findContours]
    computes the mass centers and bounding boxes it returns on the merged
    contours, after merging with the geometry of the filtered ones. *)
Theorem merge_pass_concatenates_classes (contours : list Contour)
    (massCenters : list Centroid) (boundingBoxes : list Rect)
    (extracted : list Contour) :
  let n := length contours in
  let s := unionClose sets this n massCenters boundingBoxes in
  (forall i j, (i < n)%nat -> (j < n)%nat ->
     (ds_FindSet sets s i = ds_FindSet sets s j
      <-> sameClass this n massCenters boundingBoxes i j))
  /\ (exists roots,
        NoDup roots
        /\ (forall r, r ∈ roots <-> exists i, (i < n)%nat /\ ds_FindSet sets s i = r)
        /\ mergeContours sets this contours massCenters boundingBoxes
           = (fun r => concatenated contours (members sets s n r)) <$> roots)
  /\ (forall i j, (i < n)%nat ->
        (j ∈ members sets s n (ds_FindSet sets s i)
         <-> (j < n)%nat /\ sameClass this n massCenters boundingBoxes i j))
  /\ (forall i r, members sets s n r = [i] ->
        concatenated contours (members sets s n r) = contourAt contours i)
  /\ findContours sets this extracted
     = (let kept := filterOutBadContours this extracted in
        let merged := mergeContours sets this kept (massCenter <$> kept)
                                    (approxBoundingRect <$> kept) in
        (merged, massCenter <$> merged, approxBoundingRect <$> merged)).
Proof.
  intros n s.
  pose proof (unionClose_represents sets this n massCenters boundingBoxes)
    as [Hwf Hrep].
  fold s in Hwf, Hrep.
  split; [exact Hrep|]. split.
  { destruct (mergeContours_groups sets this contours massCenters boundingBoxes)
      as (Hnodup & Hroots & Hmerge).
    eexists. split; [exact Hnodup|]. split; [exact Hroots | exact Hmerge]. }
  split.
  { intros i j Hi. rewrite members_spec. split.
    - intros [Hj Hfind]. split; [done|]. by apply Hrep.
    - intros [Hj Hsame]. split; [done|]. symmetry. by apply Hrep. }
  split; [|done].
  intros i r ->. unfold concatenated. simpl. by rewrite app_nil_r.
Qed.

End ContourClaims.

(** ** Further properties of [MultiObjectTracker::update] *)

Section TrackerExtras.
Context {KF : Type} `{!KalmanFilterOps KF} `{!OpenCV} `{!SaturateCast}.
Variable solver : AssignmentProblemSolver.
Variable m : MultiObjectTracker KF.
Variable rects : list Rect.

Lemma born_count (mc : list Point2f) :
  (length mc
   <= length (afterEviction solver m mc rects).2
      + length (born solver m mc rects))%nat.
Proof.
  unfold born, centersWithoutKalman.
  set (a3 := (afterEviction solver m mc rects).2).
  set (free := fun i : nat => existsb (Z.eqb (Z.of_nat i)) a3 = false).
  pose proof (filter_app_complement free (seq 0 (length mc))) as Hsplit.
  apply Permutation_length in Hsplit. rewrite length_app, length_seq in Hsplit.
  assert (Hnamed : (length (filter (fun i => ~ free i) (seq 0 (length mc)))
                    <= length a3)%nat).
  { rewrite <- (length_fmap Z.of_nat). apply submseteq_length, NoDup_submseteq.
    - apply NoDup_fmap_2; [apply _|]. apply NoDup_filter, NoDup_seq.
    - intros z Hz. apply list_elem_of_fmap in Hz as (i & -> & Hi).
      apply list_elem_of_filter in Hi as [Hi _]. unfold free in Hi.
      apply not_false_is_true, existsb_exists in Hi as (z & Hz & Heq).
      apply Z.eqb_eq in Heq. subst z. by apply list_elem_of_In. }
  lia.
Qed.

(** X1. After a call of [update] with detections the pool holds at least
    as many trackers as there were detections, and so is not empty: every
    detection either keeps the surviving tracker paired with it or gets a
    new one (lines 128-141). *)
Theorem pool_covers_detections (mc : list Point2f) :
  mc <> [] ->
  (length mc <= length (kalmanTrackers (update solver m mc rects).1))%nat
  /\ kalmanTrackers (update solver m mc rects).1 <> [].
Proof.
  intros Hmc.
  assert (Hlen : (length mc <= length (kalmanTrackers (update solver m mc rects).1))%nat).
  { rewrite update_pool, afterUpdate_closed by done.
    rewrite length_app, length_fmap, newborns_length.
    pose proof (born_count mc) as Hb.
    rewrite afterEviction_closed in Hb. simpl in Hb.
    by rewrite length_fmap in Hb. }
  split; [done|]. intros Hnil. rewrite Hnil in Hlen. simpl in Hlen.
  destruct mc; [done | simpl in Hlen; lia].
Qed.

Lemma sublist_fmap_filter {A B : Type} (f g : A -> B) (P : A -> Prop)
    `{!forall x, Decision (P x)} (l : list A) :
  (forall x, P x -> f x = g x) ->
  sublist (f <$> filter P l) (g <$> l).
Proof.
  intros Hfg. induction l as [|x l IH]; simpl; [constructor|].
  rewrite filter_cons. destruct (decide (P x)).
  - simpl. rewrite Hfg by done. by constructor.
  - by constructor.
Qed.

(** X2. The points [update] writes to [outputPredictions] are the
    [cv::Point] conversions of latest predictions of trackers in the pool
    it leaves, in pool order, on both paths (lines 47-49, 155-160); with
    detections they are exactly those of the pool trackers whose lifetime
    exceeds [lifetimeThreshold]. *)
Theorem emitted_predictions_come_from_pool (mc : list Point2f) :
  sublist (update solver m mc rects).2
          ((fun k => Point_of_Point2f (latestPrediction k))
             <$> kalmanTrackers (update solver m mc rects).1)
  /\ (mc <> [] ->
      (update solver m mc rects).2
      = (fun k => Point_of_Point2f (latestPrediction k))
          <$> filter (fun k => lifetimeThreshold m < getLifetime k)
                     (kalmanTrackers (update solver m mc rects).1)).
Proof.
  split.
  - destruct mc as [|c0 mc'].
    + unfold update. rewrite updateNoDetections_closed. simpl.
      rewrite <- list_fmap_compose. apply sublist_fmap_filter.
      intros k Hk. simpl. by rewrite Hk.
    + rewrite update_detections by done. simpl.
      rewrite emitPredictions_closed. apply fmap_sublist, sublist_filter.
  - intros Hmc. rewrite update_detections by done. simpl.
    rewrite emitPredictions_closed. f_equal. apply list_filter_iff.
    intros k. unfold isVisible. apply Z.ltb_lt.
Qed.


(** X3. A tracker that the solver pairs with detection [a], at a cost
    within the gate [distanceThreshold * frameDimension], and whose miss
    counter does not exceed the threshold, is in the pool after the call,
    at its rank among the survivors, predicted once, corrected with that
    detection and with the miss counter reset to 0 (lines 90-102,
    143-148). *)
Theorem paired_tracker_is_corrected (mc : list Point2f) (i : nat) (a : Z)
    (k : KalmanTracker KF) :
  mc <> [] ->
  trackersAtSolve m mc !! i = Some k ->
  solved solver m mc !! i = Some a ->
  a <> -1 ->
  (costAt (costs m mc) i a <= distanceThreshold m * frameDimension m)%Q ->
  getNumFramesWithoutUpdate k <= missedFramesThreshold m ->
  exists c,
    mc !! Z.to_nat a = Some c
    /\ kalmanTrackers (update solver m mc rects).1
         !! survivorRank m (afterOcclusion solver m mc rects)
                           (gs_assignment (gated solver m mc)) i
       = Some (gotUpdate (correct c (predict k)))
    /\ getNumFramesWithoutUpdate (gotUpdate (correct c (predict k))) = 0.
Proof.
  intros Hmc Hk Ha Hne Hnear Halive.
  assert (Hneb : (a =? -1) = false) by by apply Z.eqb_neq.
  assert (Hga : gs_assignment (gated solver m mc) !! i = Some a).
  { unfold gated. rewrite gate_assignment, list_lookup_imap, Ha. simpl.
    unfold gatedEntry. rewrite Hneb. simpl.
    destruct (Qgt_bool _ _) eqn:Hfar; [|done].
    apply Qgt_bool_lt in Hfar. by apply Qlt_not_le in Hfar. }
  assert (Hocc : afterOcclusion solver m mc rects !! i = Some k).
  { rewrite afterOcclusion_closed, list_lookup_imap, Hk. simpl.
    unfold tolerate, markUnassigned. by rewrite Hga, Ha, Hneb. }
  destruct (gated_entry_range solver m mc i a Hga) as [?|[c Hc]]; [done|].
  exists c. split; [done|].
  assert (Hnotdead : isDead m k = false) by by apply isDead_false.
  destruct (survivor_updated solver m mc rects i k a Hocc Hga Hnotdead)
    as (_ & _ & Hfin).
  rewrite update_pool, Hfin by done. unfold updateTracker.
  by rewrite Hneb, Hc.
Qed.

(** X4. A tracker the solver leaves unassigned and whose position is in
    no bounding box has its miss counter incremented by one (lines
    99-101). If the counter is still within the threshold the tracker is
    in the final pool, predicted and corrected with its own prediction
    (lines 149-152); otherwise it takes no place among the survivors
    (lines 120-126). *)
Theorem unassigned_tracker_accrues_a_miss (mc : list Point2f) (i : nat)
    (k : KalmanTracker KF) :
  mc <> [] ->
  trackersAtSolve m mc !! i = Some k ->
  solved solver m mc !! i = Some (-1) ->
  insideSomeBox rects k = false ->
  let ks := afterOcclusion solver m mc rects in
  let assignment := gs_assignment (gated solver m mc) in
  ks !! i = Some (noUpdateThisFrame k)
  /\ getNumFramesWithoutUpdate (noUpdateThisFrame k)
     = getNumFramesWithoutUpdate k + 1
  /\ (getNumFramesWithoutUpdate k + 1 <= missedFramesThreshold m ->
      kalmanTrackers (update solver m mc rects).1 !! survivorRank m ks assignment i
      = Some (correct_no_obs (predict (noUpdateThisFrame k))))
  /\ (missedFramesThreshold m < getNumFramesWithoutUpdate k + 1 ->
      survivorRank m ks assignment (S i) = survivorRank m ks assignment i).
Proof.
  intros Hmc Hk Ha Hout ks assignment.
  assert (Hga : assignment !! i = Some (-1)).
  { unfold assignment, gated.
    by rewrite gate_assignment, list_lookup_imap, Ha. }
  assert (Hocc : ks !! i = Some (noUpdateThisFrame k)).
  { unfold ks. rewrite afterOcclusion_closed, list_lookup_imap, Hk. simpl.
    unfold tolerate, markUnassigned. fold assignment. rewrite Hga, Ha. simpl.
    change (insideSomeBox rects (noUpdateThisFrame k)) with (insideSomeBox rects k).
    by rewrite Hout. }
  split; [done|]. split; [done|]. split.
  - intros Halive.
    assert (Hnotdead : isDead m (noUpdateThisFrame k) = false)
      by by apply isDead_false.
    destruct (survivor_updated solver m mc rects i _ _ Hocc Hga Hnotdead)
      as (_ & _ & Hfin).
    rewrite update_pool by done. exact Hfin.
  - intros Hdead. unfold survivorRank, survivors.
    rewrite (take_S_r ks i _ Hocc), (take_S_r assignment i _ Hga).
    rewrite zip_with_app by (rewrite !length_take;
      apply lookup_lt_Some in Hocc, Hga; lia).
    rewrite filter_app. simpl. rewrite filter_cons_False, filter_nil.
    + by rewrite app_nil_r.
    + simpl. intros Hn. apply isDead_false in Hn. simpl in Hn.
      unfold getNumFramesWithoutUpdate in *. simpl in *. lia.
Qed.

(** X5. [update] keeps the miss counters non-negative: if no tracker of
    the pool has a negative counter before the call, none has after it,
    with or without detections. *)
Theorem miss_counters_stay_nonnegative (mc : list Point2f) :
  Forall (fun k => 0 <= getNumFramesWithoutUpdate k) (kalmanTrackers m) ->
  Forall (fun k => 0 <= getNumFramesWithoutUpdate k)
         (kalmanTrackers (update solver m mc rects).1).
Proof.
  intros Hpool. rewrite Forall_forall in Hpool.
  destruct mc as [|c0 mc'] eqn:Hmc.
  - unfold update. rewrite updateNoDetections_closed. simpl.
    apply Forall_fmap, Forall_forall. intros k Hk.
    apply list_elem_of_filter in Hk as [_ Hk].
    apply list_elem_of_fmap in Hk as (k0 & -> & Hk0).
    specialize (Hpool k0 Hk0). simpl.
    destruct (isVisible m _); unfold getNumFramesWithoutUpdate in *; simpl; lia.
  - rewrite update_pool, afterUpdate_closed by done.
    assert (Hsolve : forall k, k ∈ trackersAtSolve m (c0 :: mc') ->
                               0 <= getNumFramesWithoutUpdate k).
    { intros k Hk. unfold trackersAtSolve in Hk.
      destruct (kalmanTrackers m) as [|k1 ks] eqn:Hks.
      - rewrite createInitialTrackers_empty in Hk by done.
        by apply list_elem_of_fmap in Hk as (c & -> & _).
      - rewrite createInitialTrackers_nonempty in Hk by (by rewrite Hks).
        apply Hpool. by rewrite <- Hks. }
    apply Forall_app. split.
    + apply Forall_fmap, Forall_forall. intros [k a] Hk. simpl.
      apply list_elem_of_filter in Hk as [_ Hk].
      apply list_elem_of_lookup in Hk as [i Hi].
      apply lookup_zip_Some in Hi as [Hi _].
      rewrite afterOcclusion_closed, list_lookup_imap in Hi.
      destruct (trackersAtSolve m (c0 :: mc') !! i) as [k0|] eqn:Hk0; [|done].
      simpl in Hi. injection Hi as <-.
      apply list_elem_of_lookup_2, Hsolve in Hk0.
      destruct (updateTracker_missed (c0 :: mc') a
                  (tolerate rects (gs_assignment (gated solver m (c0 :: mc'))) i
                     (markUnassigned (solved solver m (c0 :: mc')) i k0)))
        as [-> | ->]; [done|].
      unfold tolerate, markUnassigned.
      destruct (gs_assignment _ !! i) as [a1|], (solved solver m _ !! i) as [a0|];
        try destruct (a0 =? -1); try destruct ((a1 =? -1) && _);
        unfold getNumFramesWithoutUpdate in *; simpl; lia.
    + apply Forall_forall. intros t Ht.
      by apply newborns_fresh in Ht as (c & _ & ->).
Qed.


(** *** Frames without detections, one after another *)

Lemma counters_after_empty_frame :
  getNumFramesWithoutUpdate <$> kalmanTrackers (update solver m [] rects).1
  = filter (fun c => c <= missedFramesThreshold m)
           ((fun c => c + 1) <$> (getNumFramesWithoutUpdate <$> kalmanTrackers m)).
Proof.
  unfold update. rewrite updateNoDetections_closed. simpl.
  induction (kalmanTrackers m) as [|k ks IH]; [done|].
  rewrite !fmap_cons, !filter_cons.
  destruct (decide (isDead m (noUpdateThisFrame k) = false)) as [Ha|Ha];
    destruct (decide (getNumFramesWithoutUpdate k + 1 <= missedFramesThreshold m))
      as [Hb|Hb].
  - rewrite fmap_cons, fmap_cons, IH. f_equal. by destruct (isVisible m _).
  - apply isDead_false in Ha. done.
  - exfalso. apply Ha. by apply isDead_false.
  - done.
Qed.

Lemma filter_shift_twice (thr k : Z) (cs : list Z) :
  0 <= k ->
  filter (fun c => c <= thr) ((fun c => c + k) <$> filter (fun c => c <= thr)
                                ((fun c => c + 1) <$> cs))
  = filter (fun c => c <= thr) ((fun c => c + (k + 1)) <$> cs).
Proof.
  intros Hk. induction cs as [|c cs IH]; [done|].
  rewrite !fmap_cons. rewrite (filter_cons _ (c + 1)).
  rewrite (filter_cons _ (c + (k + 1))).
  destruct (decide (c + 1 <= thr)) as [H1|H1].
  - rewrite fmap_cons, filter_cons.
    destruct (decide (c + 1 + k <= thr)); destruct (decide (c + (k + 1) <= thr));
      try lia; rewrite IH; [f_equal; lia | done].
  - destruct (decide (c + (k + 1) <= thr)); [lia|]. exact IH.
Qed.

End TrackerExtras.

Section EmptyFrames.
Context {KF : Type} `{!KalmanFilterOps KF} `{!OpenCV} `{!SaturateCast}.
Variable solver : AssignmentProblemSolver.
Variable rects : list Rect.

Lemma empty_frame_keeps_threshold (m : MultiObjectTracker KF) :
  missedFramesThreshold (update solver m [] rects).1 = missedFramesThreshold m.
Proof. unfold update. by rewrite updateNoDetections_closed. Qed.

Lemma counters_after_empty_frames (n : nat) (m : MultiObjectTracker KF) :
  getNumFramesWithoutUpdate
    <$> kalmanTrackers (updateEmptyFrames solver rects (S n) m)
  = filter (fun c => c <= missedFramesThreshold m)
           ((fun c => c + Z.of_nat (S n))
              <$> (getNumFramesWithoutUpdate <$> kalmanTrackers m)).
Proof.
  revert m. induction n as [|n IH]; intros m.
  - exact (counters_after_empty_frame solver m rects).
  - change (updateEmptyFrames solver rects (S (S n)) m)
      with (updateEmptyFrames solver rects (S n) (update solver m [] rects).1).
    rewrite IH, empty_frame_keeps_threshold.
    rewrite (counters_after_empty_frame solver m rects).
    rewrite filter_shift_twice by lia.
    f_equal. apply list_fmap_ext. intros _ c _. lia.
Qed.

(** X6. After [n + 1] consecutive calls of [update] without detections
    the miss counters in the pool are the initial ones plus [n + 1], for
    the trackers where this does not exceed [missedFramesThreshold], in
    their order; the pool is empty as soon as every initial counter plus
    [n + 1] exceeds the threshold, and no tracker is lost as long as none
    does (lines 34-52). *)
Theorem empty_frames_age_and_evict (n : nat) (m : MultiObjectTracker KF) :
  let pool := kalmanTrackers (updateEmptyFrames solver rects (S n) m) in
  getNumFramesWithoutUpdate <$> pool
  = filter (fun c => c <= missedFramesThreshold m)
           ((fun c => c + Z.of_nat (S n))
              <$> (getNumFramesWithoutUpdate <$> kalmanTrackers m))
  /\ ((forall k, k ∈ kalmanTrackers m ->
         missedFramesThreshold m < getNumFramesWithoutUpdate k + Z.of_nat (S n)) ->
      pool = [])
  /\ ((forall k, k ∈ kalmanTrackers m ->
         getNumFramesWithoutUpdate k + Z.of_nat (S n) <= missedFramesThreshold m) ->
      length pool = length (kalmanTrackers m)).
Proof.
  intros pool. pose proof (counters_after_empty_frames n m) as Hc. fold pool in Hc.
  split; [done|]. split.
  - intros Hold. apply (fmap_nil_inv getNumFramesWithoutUpdate). rewrite Hc. clear Hc.
    induction (kalmanTrackers m) as [|k ks IH]; [done|].
    rewrite !fmap_cons, filter_cons_False.
    + apply IH. intros. apply Hold. by right.
    + pose proof (Hold k ltac:(by left)). lia.
  - intros Hyoung. rewrite <- (length_fmap getNumFramesWithoutUpdate pool), Hc.
    clear Hc. rewrite <- (length_fmap getNumFramesWithoutUpdate (kalmanTrackers m)).
    induction (kalmanTrackers m) as [|k ks IH]; [done|].
    rewrite !fmap_cons, filter_cons_True.
    + simpl. f_equal. apply IH. intros. apply Hyoung. by right.
    + apply (Hyoung k). by left.
Qed.

(** [update] reads the frame size only as [height + width] (line 92). *)
Lemma update_swapFrameSize (m : MultiObjectTracker KF) (mc : list Point2f) :
  update solver (swapFrameSize m) mc rects
  = (swapFrameSize (update solver m mc rects).1, (update solver m mc rects).2).
Proof.
  assert (Hdim : frameDimension (swapFrameSize m) = frameDimension m).
  { unfold frameDimension. simpl. by rewrite Z.add_comm. }
  destruct mc as [|c0 mc'].
  - unfold update. by rewrite !updateNoDetections_closed.
  - assert (Hga : gs_assignment (gated solver (swapFrameSize m) (c0 :: mc'))
                  = gs_assignment (gated solver m (c0 :: mc'))).
    { unfold gated. rewrite !gate_assignment. apply imap_ext. intros i a _.
      unfold gatedEntry. by rewrite Hdim. }
    assert (Hgk : gs_trackers (gated solver (swapFrameSize m) (c0 :: mc'))
                  = gs_trackers (gated solver m (c0 :: mc'))).
    { unfold gated. by rewrite !gate_trackers. }
    assert (Hpool : afterUpdate solver (swapFrameSize m) (c0 :: mc') rects
                    = afterUpdate solver m (c0 :: mc') rects).
    { unfold afterUpdate, afterBirths, born, afterEviction, afterOcclusion.
      by rewrite Hga, Hgk. }
    rewrite !update_detections by done. simpl. rewrite Hpool.
    by rewrite !emitPredictions_closed.
Qed.

End EmptyFrames.

Section FrameOrientation.
Context {KF : Type} `{!KalmanFilterOps KF} `{!OpenCV} `{!SaturateCast}.
Variable solver : AssignmentProblemSolver.

Lemma updateFrames_swapFrameSize (frames : list (list Point2f * list Rect))
    (m : MultiObjectTracker KF) :
  updateFrames solver frames (swapFrameSize m)
  = (swapFrameSize (updateFrames solver frames m).1,
     (updateFrames solver frames m).2).
Proof.
  revert m. induction frames as [|[mc rects] frames IH]; intros m; [done|].
  cbn [updateFrames]. rewrite update_swapFrameSize. cbn [fst snd].
  by rewrite IH.
Qed.

(** X7. The callers construct the tracker with [cv::Size(frame.rows,
    frame.cols)], the rows in the place of the width. This is the tracker
    with the intended size and the two dimensions exchanged, and the
    exchange changes nothing: over any sequence of frames the predictions
    of every frame and the final pool are the same, because [update] reads
    the size only as [height + width] (line 92). *)
Theorem frame_orientation_is_immaterial
    (frames : list (list Point2f * list Rect)) (m : MultiObjectTracker KF)
    (rows cols lifetimeThr missedThr : Z) (distanceThr dt0 magnitude : Q) :
  (updateFrames solver frames (swapFrameSize m)).2 = (updateFrames solver frames m).2
  /\ kalmanTrackers (updateFrames solver frames (swapFrameSize m)).1
     = kalmanTrackers (updateFrames solver frames m).1
  /\ MultiObjectTracker_new (callerFrameSize rows cols)
       lifetimeThr distanceThr missedThr dt0 magnitude
     = swapFrameSize (MultiObjectTracker_new (KF := KF) (mkSize cols rows)
                        lifetimeThr distanceThr missedThr dt0 magnitude).
Proof. by rewrite updateFrames_swapFrameSize. Qed.

End FrameOrientation.

(** ** Further properties of [ContourFinder] *)

Section ContourExtras.
Context `{!ContourCV} `{!OpenCV}.
Variable sets : DisjointSets.
Variable this : ContourFinder.

Lemma members_NoDup (s : dsets sets) (n r : nat) : NoDup (members sets s n r).
Proof. unfold members. apply NoDup_filter, NoDup_seq. Qed.

Lemma members_join_NoDup (s : dsets sets) (n : nat) (roots : list nat) :
  NoDup roots -> NoDup (mjoin (members sets s n <$> roots)).
Proof.
  induction 1 as [|r roots Hr Hnd IH]; [constructor|].
  rewrite fmap_cons. simpl. apply NoDup_app. split; [apply members_NoDup|].
  split; [|done]. intros x Hx Hx'.
  apply list_elem_of_join in Hx' as (l & Hxl & Hl).
  apply list_elem_of_fmap in Hl as (r' & -> & Hr').
  apply members_spec in Hx as [_ Hx]. apply members_spec in Hxl as [_ Hxl].
  congruence.
Qed.

Lemma members_join (s : dsets sets) (n : nat) (roots : list nat) :
  NoDup roots ->
  (forall r, r ∈ roots <-> exists i, (i < n)%nat /\ ds_FindSet sets s i = r) ->
  mjoin (members sets s n <$> roots) ≡ₚ seq 0 n.
Proof.
  intros Hnd Hroots. apply NoDup_Permutation.
  - by apply members_join_NoDup.
  - apply NoDup_seq.
  - intros x. rewrite list_elem_of_join, elem_of_seq. split.
    + intros (l & Hxl & Hl). apply list_elem_of_fmap in Hl as (r & -> & _).
      apply members_spec in Hxl. lia.
    + intros Hx. exists (members sets s n (ds_FindSet sets s x)). split.
      * apply members_spec. split; [lia|done].
      * apply list_elem_of_fmap. eexists. split; [done|].
        apply Hroots. exists x. split; [lia|done].
Qed.

Lemma contourAt_seq (contours : list Contour) :
  contourAt contours <$> seq 0 (length contours) = contours.
Proof.
  apply list_eq. intros i. rewrite list_lookup_fmap.
  destruct (decide (i < length contours)%nat) as [Hi|Hi].
  - rewrite lookup_seq_lt by done. simpl. unfold contourAt.
    destruct (lookup_lt_is_Some_2 contours i Hi) as [c Hc]. by rewrite Hc.
  - rewrite lookup_seq_ge by lia. simpl. symmetry. apply lookup_ge_None. lia.
Qed.

Lemma concatenated_join (contours : list Contour) (f : nat -> list nat)
    (roots : list nat) :
  mjoin ((fun r => concatenated contours (f r)) <$> roots)
  = concatenated contours (mjoin (f <$> roots)).
Proof.
  unfold concatenated. induction roots as [|r roots IH]; [done|].
  rewrite !fmap_cons. simpl. by rewrite IH, fmap_app, join_app.
Qed.

Lemma roots_bound (contours : list Contour) (massCenters : list Centroid)
    (boundingBoxes : list Rect) :
  let n := length contours in
  let s := unionClose sets this n massCenters boundingBoxes in
  (length (map_to_list (collectItems sets n s)).*1 <= n)%nat.
Proof.
  intros n s.
  destruct (mergeContours_groups sets this contours massCenters boundingBoxes)
    as (Hnd & Hroots & _).
  pose proof (unionClose_represents sets this n massCenters boundingBoxes)
    as [Hwf _].
  fold n s in Hnd, Hroots, Hwf.
  rewrite <- (length_seq n 0) at 2. apply submseteq_length, NoDup_submseteq; [done|].
  intros r Hr. apply Hroots in Hr as (i & Hi & <-). apply elem_of_seq.
  pose proof (ds_FindSet_member sets n s i Hwf Hi). lia.
Qed.

Lemma mergeContours_points (contours : list Contour)
    (massCenters : list Centroid) (boundingBoxes : list Rect) :
  mjoin (mergeContours sets this contours massCenters boundingBoxes)
  ≡ₚ mjoin contours.
Proof.
  destruct (mergeContours_groups sets this contours massCenters boundingBoxes)
    as (Hnd & Hroots & Hmerge).
  simpl in Hnd, Hroots, Hmerge.
  rewrite Hmerge, concatenated_join. unfold concatenated.
  rewrite (members_join _ _ _ Hnd Hroots). by rewrite contourAt_seq.
Qed.

Lemma mergeContours_length (contours : list Contour)
    (massCenters : list Centroid) (boundingBoxes : list Rect) :
  (length (mergeContours sets this contours massCenters boundingBoxes)
   <= length contours)%nat.
Proof.
  destruct (mergeContours_groups sets this contours massCenters boundingBoxes)
    as (_ & _ & Hmerge).
  pose proof (roots_bound contours massCenters boundingBoxes) as Hbound.
  simpl in Hmerge, Hbound. by rewrite Hmerge, length_fmap.
Qed.

(** X8. The merge pass conserves the points: the points of the merged
    contours, taken together, are those of the input contours, each as
    often as it occurred; there are at most as many merged contours as
    input contours, and at least one when the input is not empty (lines
    100-158). *)
Theorem merge_conserves_points (contours : list Contour)
    (massCenters : list Centroid) (boundingBoxes : list Rect) :
  let merged := mergeContours sets this contours massCenters boundingBoxes in
  mjoin merged ≡ₚ mjoin contours
  /\ (length merged <= length contours)%nat
  /\ (contours <> [] -> merged <> []).
Proof.
  intros merged.
  split; [apply mergeContours_points|]. split; [apply mergeContours_length|].
  intros Hne Hnil.
  destruct (mergeContours_groups sets this contours massCenters boundingBoxes)
    as (_ & Hroots & Hmerge).
  simpl in Hroots, Hmerge. fold merged in Hmerge.
  rewrite Hmerge in Hnil. apply fmap_nil_inv in Hnil.
  destruct contours as [|c cs]; [done|].
  assert (Hin : ds_FindSet sets
                  (unionClose sets this (length (c :: cs)) massCenters boundingBoxes)
                  0%nat ∈ @nil nat).
  { rewrite <- Hnil. apply Hroots. exists 0%nat. simpl. split; [lia|done]. }
  by apply elem_of_nil in Hin.
Qed.

(** X9. When no two different contours pass the proximity test of lines
    113-117, the merge pass returns the input contours, each unchanged,
    in the iteration order of the map. *)
Theorem merge_without_close_pairs (contours : list Contour)
    (massCenters : list Centroid) (boundingBoxes : list Rect) :
  (forall i j, (i < length contours)%nat -> (j < length contours)%nat -> i <> j ->
     closeEnough this massCenters boundingBoxes i j = false) ->
  mergeContours sets this contours massCenters boundingBoxes ≡ₚ contours.
Proof.
  intros Hfar.
  destruct (mergeContours_groups sets this contours massCenters boundingBoxes)
    as (Hnd & Hroots & Hmerge).
  pose proof (unionClose_represents sets this (length contours)
                massCenters boundingBoxes) as [Hwf Hrep].
  simpl in Hnd, Hroots, Hmerge.
  set (n := length contours) in *.
  set (s := unionClose sets this n massCenters boundingBoxes) in *.
  assert (Hid : forall i j,
    clos_refl_sym_trans nat (proximate this n massCenters boundingBoxes) i j -> i = j).
  { intros i j Hc. induction Hc as [x y (Hx & Hy & Hxy)|x|x y _ IH|x y z _ IH1 _ IH2];
      try congruence.
    destruct (decide (x = y)) as [|Hne]; [done|].
    rewrite (Hfar x y Hx Hy Hne) in Hxy. done. }
  assert (Hself : forall i, (i < n)%nat -> ds_FindSet sets s i = i).
  { intros i Hi. destruct (ds_FindSet_member sets n s i Hwf Hi) as [Hlt Hidem].
    apply Hid, Hrep; done. }
  assert (Hperm : (map_to_list (collectItems sets n s)).*1 ≡ₚ seq 0 n).
  { apply NoDup_Permutation; [done | apply NoDup_seq |].
    intros r. rewrite Hroots, elem_of_seq. split.
    - intros (i & Hi & <-). rewrite Hself by done. lia.
    - intros Hr. exists r. split; [lia | apply Hself; lia]. }
  assert (Heq : (fun r => concatenated contours (members sets s n r))
                  <$> (map_to_list (collectItems sets n s)).*1
                = contourAt contours <$> (map_to_list (collectItems sets n s)).*1).
  { apply list_fmap_ext. intros k r Hr.
    apply list_elem_of_lookup_2 in Hr. apply Hroots in Hr as (i & Hi & Hri).
    rewrite Hself in Hri by done. subst i.
    assert (Hm : members sets s n r = [r]).
    { apply Permutation_singleton_r, NoDup_Permutation;
        [apply members_NoDup | apply NoDup_singleton |].
      intros x. rewrite members_spec, list_elem_of_singleton. split.
      - intros [Hx Hxr]. by rewrite Hself in Hxr.
      - intros ->. split; [done | by apply Hself]. }
    rewrite Hm. unfold concatenated. simpl. by rewrite app_nil_r. }
  rewrite Hmerge, Heq, Hperm. unfold n. by rewrite contourAt_seq.
Qed.

(** X10. [findContours] leaves one mass center and one bounding box per
    contour; it returns at most as many contours as the size filter kept,
    which are at most as many as were extracted, and their points are the
    points of the contours the filter kept (lines 87-97). *)
Theorem findContours_outputs (extracted : list Contour) :
  let '(contours, massCenters, boundingBoxes) := findContours sets this extracted in
  length massCenters = length contours
  /\ length boundingBoxes = length contours
  /\ (length contours <= length (filterOutBadContours this extracted)
      <= length extracted)%nat
  /\ mjoin contours ≡ₚ mjoin (filterOutBadContours this extracted).
Proof.
  unfold findContours, getCentersAndBoundingBoxes.
  set (kept := filterOutBadContours this extracted).
  pose proof (mergeContours_points kept (massCenter <$> kept)
                (approxBoundingRect <$> kept)) as Hperm.
  pose proof (mergeContours_length kept (massCenter <$> kept)
                (approxBoundingRect <$> kept)) as Hlen.
  rewrite !length_fmap. repeat split; try done.
  unfold kept, filterOutBadContours. apply length_filter.
Qed.


(** *** The size filter and the largest contour *)

Lemma largestArea_attained (contours : list Contour) :
  contours <> [] ->
  exists c, c ∈ contours /\ (contourArea c == largestArea contours)%Q.
Proof.
  unfold largestArea. induction contours as [|c cs IH]; [done|]. intros _.
  simpl. unfold Qmax. destruct (Qle_bool _ _) eqn:E.
  - destruct cs as [|c' cs'].
    + exists c. split; [by left|]. simpl in *. apply Qle_bool_iff in E.
      apply Qle_antisym; [done | apply contourArea_nonneg].
    + destruct (IH ltac:(done)) as (c0 & Hc0 & Heq). exists c0. split; [by right|done].
  - exists c. split; [by left | reflexivity].
Qed.

(** X11. With a size fraction in [0, 1) a contour of positive area that
    no other contour exceeds in area passes the size filter, whatever the
    areas are, within the range of [int] or not: the filter never empties
    a frame that has a contour of positive area (lines 42-56). *)
Theorem largest_contour_survives (contours : list Contour) (c : Contour) :
  (0 <= contourSizeThreshold this)%Q -> (contourSizeThreshold this < 1)%Q ->
  c ∈ contours -> (0 < contourArea c)%Q ->
  (forall c', c' ∈ contours -> (contourArea c' <= contourArea c)%Q) ->
  c ∈ filterOutBadContours this contours.
Proof.
  intros Hf0 Hf1 Hc Hpos Hmax. apply filterOutBadContours_spec. split; [done|].
  unfold threshold.
  pose proof (maxArea_upper contours (contourArea c)
                (Qlt_le_weak _ _ Hpos) Hmax) as Hle.
  unfold maxArea in *.
  set (a := foldl _ 0 (contourArea <$> contours)) in *.
  destruct (decide (a <= 0)) as [Hneg|Hapos].
  - eapply Qle_lt_trans; [|exact Hpos].
    assert (Hprod : (contourSizeThreshold this * inject_Z a <= 0)%Q).
    { apply Qmult_nonneg_nonpos; [done|]. unfold Qle. simpl. lia. }
    pose proof (to_int_nonpos _ Hprod). unfold Qle. simpl. lia.
  - assert (Ha : (0 < inject_Z a)%Q) by (unfold Qlt; simpl; lia).
    eapply Qle_lt_trans;
      [apply to_int_upper, Qmult_le_0_compat; [done | by apply Qlt_le_weak]|].
    eapply Qlt_le_trans; [|exact Hle].
    rewrite <- (Qmult_1_l (inject_Z a)) at 2.
    by apply Qmult_lt_compat_r.
Qed.

Lemma filter_twice {A} (P : A -> Prop) `{!forall x, Decision (P x)} (l : list A) :
  filter P (filter P l) = filter P l.
Proof.
  induction l as [|x l IH]; [done|]. rewrite filter_cons.
  destruct (decide (P x)); [|done]. by rewrite filter_cons_True, IH.
Qed.

(** X12. While every area is within the range of [int], the size filter
    is idempotent, for every size fraction: the contours it keeps include
    one of the largest area whenever it keeps any, so their threshold is
    the one they passed (lines 30-57). *)
Theorem filterOutBadContours_idempotent (contours : list Contour) :
  areasFit contours ->
  filterOutBadContours this (filterOutBadContours this contours)
  = filterOutBadContours this contours.
Proof.
  intros Hfit.
  destruct (filterOutBadContours this contours) as [|c0 kept'] eqn:Hkept; [done|].
  rewrite <- Hkept.
  assert (Hc0 : c0 ∈ filterOutBadContours this contours) by (rewrite Hkept; by left).
  apply filterOutBadContours_spec in Hc0 as [Hc0 Hlt0].
  assert (Hne : contours <> []) by (intros ->; by apply elem_of_nil in Hc0).
  destruct (largestArea_attained contours Hne) as (cmax & Hcmax & Hattained).
  assert (Hin : cmax ∈ filterOutBadContours this contours).
  { apply filterOutBadContours_spec. split; [done|].
    eapply Qlt_le_trans; [exact Hlt0|]. rewrite Hattained.
    by apply largestArea_ge. }
  assert (Hfit' : areasFit (filterOutBadContours this contours)).
  { intros c Hc. apply filterOutBadContours_spec in Hc as [Hc _]. by apply Hfit. }
  assert (Hthr : threshold this (filterOutBadContours this contours)
                 = threshold this contours).
  { unfold threshold. rewrite !maxArea_largestArea by done. do 3 f_equal.
    apply trunc_Qeq, Qle_antisym.
    - apply largestArea_upper; [apply largestArea_nonneg|].
      intros c Hc. apply filterOutBadContours_spec in Hc as [Hc _].
      by apply largestArea_ge.
    - rewrite <- Hattained. by apply largestArea_ge. }
  unfold filterOutBadContours at 1. rewrite Hthr. apply filter_twice.
Qed.

End ContourExtras.

(** ** The mouse state machine *)

Section MouseFacts.

Lemma uiRun_app (st : MouseState) (l1 l2 : list UiAction) :
  uiRun st (l1 ++ l2) = uiRun (uiRun st l1) l2.
Proof. apply foldl_app. Qed.

Lemma uiStep_keeps_rectangle_in_drag (st : MouseState) (a : UiAction) :
  (hasRectangle st = true -> isDragging st = true) ->
  hasRectangle (uiStep st a) = true -> isDragging (uiStep st a) = true.
Proof.
  intros Hinv. destruct a as [[] x y|]; simpl;
    unfold mouseHandler, handleMouseCallbacks;
    destruct (isDragging st) eqn:Hd, (triggerCallback st) eqn:Ht; simpl;
    rewrite ?Hd; auto; try discriminate.
Qed.

(** X13. From the start of the program on, whatever the window system
    and the frame loop do, [hasRectangle] is set only while a drag is in
    progress: the handler sets it on a move during a drag and clears it
    on the release. *)
Theorem rectangle_shown_only_while_dragging (actions : list UiAction) :
  hasRectangle (uiRun mouseStart actions) = true ->
  isDragging (uiRun mouseStart actions) = true.
Proof.
  induction actions as [|a actions IH] using rev_ind; [discriminate|].
  rewrite uiRun_app. simpl. by apply uiStep_keeps_rectangle_in_drag.
Qed.

Lemma drag_continues (st : MouseState) (mid : list UiAction) :
  isDragging st = true ->
  Forall (fun a => isRelease a = false) mid ->
  isDragging (uiRun st mid) = true /\ point1 (uiRun st mid) = point1 st.
Proof.
  revert st. induction mid as [|a mid IH]; intros st Hd Hmid; [done|].
  apply Forall_cons in Hmid as [Ha Hmid]. simpl.
  assert (Hstep : isDragging (uiStep st a) = true /\ point1 (uiStep st a) = point1 st).
  { destruct a as [[] x y|]; simpl in *; try discriminate;
      unfold mouseHandler, handleMouseCallbacks; rewrite ?Hd;
      try destruct (triggerCallback st); simpl; auto. }
  destruct Hstep as [Hd' Hp]. destruct (IH _ Hd' Hmid) as [IH1 IH2].
  split; [done | congruence].
Qed.

(** X14. A press outside a drag at [(x1, y1)], then any events and frame
    ends without a release, then a release at [(x2, y2)]: the drag is
    over, [triggerCallback] is set, the two corners are the press and the
    release points, and the next frame end hands exactly the rectangle
    they span to [suppressRectangle] and clears [triggerCallback]. *)
Theorem drag_gesture_selects_rectangle (st : MouseState) (x1 y1 x2 y2 : Z)
    (mid : list UiAction) :
  isDragging st = false ->
  Forall (fun a => isRelease a = false) mid ->
  let st' := uiRun st (Mouse EVENT_LBUTTONDOWN x1 y1 :: mid
                         ++ [Mouse EVENT_LBUTTONUP x2 y2]) in
  isDragging st' = false
  /\ hasRectangle st' = false
  /\ triggerCallback st' = true
  /\ point1 st' = mkPoint x1 y1
  /\ point2 st' = mkPoint x2 y2
  /\ mo_suppressed (handleMouseCallbacks st')
     = Some (Rect_of_corners (mkPoint x1 y1) (mkPoint x2 y2))
  /\ triggerCallback (mo_state (handleMouseCallbacks st')) = false.
Proof.
  intros Hd Hmid st'.
  set (st1 := mouseHandler EVENT_LBUTTONDOWN x1 y1 st).
  assert (Hd1 : isDragging st1 = true) by (unfold st1, mouseHandler; by rewrite Hd).
  assert (Hp1 : point1 st1 = mkPoint x1 y1) by (unfold st1, mouseHandler; by rewrite Hd).
  destruct (drag_continues st1 mid Hd1 Hmid) as [Hd2 Hp2].
  assert (Hst' : st' = mouseHandler EVENT_LBUTTONUP x2 y2 (uiRun st1 mid)).
  { unfold st'. change (uiRun st (Mouse EVENT_LBUTTONDOWN x1 y1 :: ?l))
      with (uiRun st1 (mid ++ [Mouse EVENT_LBUTTONUP x2 y2])).
    by rewrite uiRun_app. }
  rewrite Hst'. unfold mouseHandler, handleMouseCallbacks. rewrite Hd2. simpl.
  rewrite Hp2, Hp1. done.
Qed.

Lemma uiSuppressed_bound (st : MouseState) (actions : list UiAction) :
  (length (uiSuppressed st actions)
   <= (if triggerCallback st then 1 else 0) + length (filter (fun a => isRelease a = true) actions))%nat.
Proof.
  revert st. induction actions as [|a actions IH]; intros st; simpl; [lia|].
  specialize (IH (uiStep st a)).
  destruct a as [[] x y|]; simpl in *;
    unfold mouseHandler, handleMouseCallbacks in *;
    rewrite ?filter_cons_True, ?filter_cons_False by (simpl; congruence);
    destruct (isDragging st) eqn:Hd, (triggerCallback st) eqn:Ht;
    simpl in *; rewrite ?Hd, ?Ht in *; simpl in *; lia.
Qed.

(** X15. Along any run [suppressRectangle] is called at most once per
    button release: releases that arrive between two frame ends share one
    call, and without a release there is none. *)
Theorem suppressions_bounded_by_releases (actions : list UiAction) :
  (length (uiSuppressed mouseStart actions)
   <= length (filter (fun a => isRelease a = true) actions))%nat.
Proof. apply (uiSuppressed_bound mouseStart). Qed.

End MouseFacts.

(** ** [orderPoints] *)

Section OrderFacts.
Variable fourPoints : list Point2f.







End OrderFacts.





(** ** Scenarios *)

Import Demo.

(** Scenario 4 of the specification: a tracker at (10, 10), one detection
    at (400, 400) in a 500x500 frame, here with a bounding box around the
    detection. The distance 551 exceeds the gate 50; the pairing is
    cancelled, a tracker is born at (400, 400), and the old tracker ends
    the frame with the miss counter 0 it had. *)
Lemma gate_rejection_scenario :
  let m := tracker500 2 10 [trackerAt 10 10 5 0] in
  let mc := [pt 400 400] in
  let rects := [mkRect 380 380 40 40] in
  costs m mc = [[inject_Z 551]]
  /\ solved diagonalSolver m mc = [0]
  /\ gs_assignment (gated diagonalSolver m mc) !! 0%nat = Some (-1)
  /\ gs_trackers (gated diagonalSolver m mc) !! 0%nat = Some (trackerAt 10 10 5 0)
  /\ KalmanTracker_new_default (pt 400 400)
       ∈ kalmanTrackers (update diagonalSolver m mc rects).1
  /\ exists t,
       kalmanTrackers (update diagonalSolver m mc rects).1 !! 0%nat = Some t
       /\ getNumFramesWithoutUpdate t = 0.
Proof.
  intros m mc rects.
  destruct (gating_cancels_without_miss diagonalSolver m rects mc 0 0
              (trackerAt 10 10 5 0))
    as (Ha & Hk & Hborn & Hmiss);
    [discriminate | reflexivity | reflexivity | lia | reflexivity |].
  split; [reflexivity|]. split; [reflexivity|].
  split; [exact Ha|]. split; [exact Hk|]. split.
  - apply (Hborn (pt 400 400)); [reflexivity|].
    intros Hin. apply list_elem_of_In in Hin. vm_compute in Hin.
    destruct Hin as [Hin|[]]. discriminate Hin.
  - apply Hmiss; reflexivity.
Defined.

(** C2 fails for trackers born in the call. The demo filter's lifetime
    counts the calls of [predict] since construction, so a tracker on
    which [predict] was invoked has a lifetime of at least 1. In scenario 4
    the tracker born at (400, 400) ends the call with lifetime 0. *)
Lemma newborn_tracker_is_not_predicted :
  ~ Forall (fun t => 1 <= getLifetime t)
      (kalmanTrackers
         (update diagonalSolver (tracker500 2 10 [trackerAt 10 10 5 0])
                 [pt 400 400] [mkRect 380 380 40 40]).1).
Proof.
  intros Hall.
  apply (Forall_lookup_1 _ _ 1%nat (KalmanTracker_new_default (pt 400 400))) in Hall;
    [|reflexivity].
  vm_compute in Hall. by apply Hall.
Qed.

(** C4 fails for a negative threshold: with [missedFramesThreshold = -1]
    and one detection the tracker created for the empty pool is evicted,
    and the tracker born in its place ends the call with a counter of 0,
    which exceeds -1. *)
Lemma negative_threshold_leaves_counter_above :
  ~ Forall (fun k => getNumFramesWithoutUpdate k <= -1)
      (kalmanTrackers
         (update diagonalSolver (tracker500 2 (-1) []) [pt 5 5]
                 [mkRect 0 0 10 10]).1).
Proof.
  intros Hall.
  apply (Forall_lookup_1 _ _ 0%nat (KalmanTracker_new_default (pt 5 5))) in Hall;
    [|reflexivity].
  vm_compute in Hall. by apply Hall.
Qed.

(** The invariant of C4 on scenario 4, with a threshold of 10. *)
Lemma threshold_invariant_scenario :
  let m := tracker500 2 10 [trackerAt 10 10 5 3] in
  0 <= missedFramesThreshold m
  /\ Forall (fun k => getNumFramesWithoutUpdate k <= 10)
       (kalmanTrackers (update diagonalSolver m [pt 400 400]
                               [mkRect 380 380 40 40]).1).
Proof.
  intros m. assert (Hthr : 0 <= missedFramesThreshold m) by (simpl; lia).
  split; [exact Hthr|].
  exact (proj1 (missed_frames_within_threshold diagonalSolver m
                  [mkRect 380 380 40 40] [pt 400 400] Hthr)).
Defined.

(** Occlusion tolerance (C8): the tracker at (10, 10), with 3 missed
    frames, is gated away from the detection at (400, 400), whose bounding
    box covers the frame; it ends the frame with a counter of 0. *)
Lemma occlusion_tolerance_scenario :
  let m := tracker500 2 10 [trackerAt 10 10 5 3] in
  let mc := [pt 400 400] in
  let rects := [mkRect 0 0 500 500] in
  let k := trackerAt 10 10 5 3 in
  mc <> []
  /\ gs_assignment (gated diagonalSolver m mc) !! 0%nat = Some (-1)
  /\ gs_trackers (gated diagonalSolver m mc) !! 0%nat = Some k
  /\ insideSomeBox rects k = true
  /\ afterOcclusion diagonalSolver m mc rects !! 0%nat = Some (gotUpdate k)
  /\ exists t,
       kalmanTrackers (update diagonalSolver m mc rects).1 !! 0%nat = Some t
       /\ getNumFramesWithoutUpdate t = 0.
Proof.
  intros m mc rects k.
  assert (Hmc : mc <> []) by discriminate.
  assert (Ha : gs_assignment (gated diagonalSolver m mc) !! 0%nat = Some (-1))
    by reflexivity.
  assert (Hk : gs_trackers (gated diagonalSolver m mc) !! 0%nat = Some k)
    by reflexivity.
  assert (Hin : insideSomeBox rects k = true) by reflexivity.
  destruct (occlusion_tolerance_resets_counter diagonalSolver m rects mc 0 k
              Hmc Ha Hk Hin) as (Hocc & _ & Hend).
  repeat (split; [assumption|]).
  apply Hend. simpl. lia.
Defined.

(** The same frame for C9: the tolerated tracker is predicted and
    corrected with its own prediction, (10, 10); the detection at
    (400, 400) does not enter its filter. *)
Lemma occlusion_tolerance_estimate_scenario :
  let m := tracker500 2 10 [trackerAt 10 10 5 3] in
  let mc := [pt 400 400] in
  let rects := [mkRect 0 0 500 500] in
  let k := trackerAt 10 10 5 3 in
  mc <> []
  /\ gs_assignment (gated diagonalSolver m mc) !! 0%nat = Some (-1)
  /\ gs_trackers (gated diagonalSolver m mc) !! 0%nat = Some k
  /\ insideSomeBox rects k = true
  /\ 0 <= missedFramesThreshold m
  /\ (afterEviction diagonalSolver m mc rects).2 !! 0%nat = Some (-1)
  /\ kalmanTrackers (update diagonalSolver m mc rects).1 !! 0%nat
     = Some (mkKalmanTracker (mkStaticFilter (pt 10 10) 6) 1 (1 # 2) 0).
Proof.
  intros m mc rects k.
  assert (Hmc : mc <> []) by discriminate.
  assert (Ha : gs_assignment (gated diagonalSolver m mc) !! 0%nat = Some (-1))
    by reflexivity.
  assert (Hk : gs_trackers (gated diagonalSolver m mc) !! 0%nat = Some k)
    by reflexivity.
  assert (Hin : insideSomeBox rects k = true) by reflexivity.
  assert (Hthr : 0 <= missedFramesThreshold m) by (simpl; lia).
  destruct (occlusion_tolerance_keeps_estimate diagonalSolver m rects mc 0 k
              Hmc Ha Hk Hin Hthr) as (_ & Hent & Hfin & _).
  repeat (split; [assumption|]). exact Hfin.
Defined.

(** The birth paths (C10) on scenario 4: the tracker is configured with a
    magnitude of 1/4, the constructor's default is 1/2, and the tracker
    born at (400, 400) carries the default. *)
Lemma birth_paths_scenario :
  let m := tracker500 2 10 [trackerAt 10 10 5 0] in
  let mc := [pt 400 400] in
  let rects := [mkRect 380 380 40 40] in
  mc <> []
  /\ (exists older,
        kalmanTrackers (update diagonalSolver m mc rects).1
        = older ++ [KalmanTracker_new (pt 400 400) 1 (1 # 2)]
        /\ length older = 1%nat)
  /\ ~ (kt_dt (KalmanTracker_new (pt 20 20) (dt m) (magnitudeOfAccelerationNoise m))
          == kt_dt (KalmanTracker_new_default (pt 400 400))
        /\ kt_magnitudeOfAccelerationNoise
             (KalmanTracker_new (pt 20 20) (dt m) (magnitudeOfAccelerationNoise m))
           == kt_magnitudeOfAccelerationNoise
                (KalmanTracker_new_default (pt 400 400)))%Q.
Proof.
  intros m mc rects.
  assert (Hmc : mc <> []) by discriminate.
  destruct (birth_paths_parameters diagonalSolver m rects mc Hmc)
    as (_ & _ & Hpool & _ & Hdiff).
  split; [exact Hmc|]. split; [exact Hpool|].
  apply (Hdiff (pt 20 20) (pt 400 400)).
  intros [_ Hmag]. vm_compute in Hmag. discriminate Hmag.
Defined.

(** C3 fails at the centroid step: a contour of one point has area and
    [m00] zero; [getCentersAndBoundingBoxes] does not skip it, and its
    mass center is the result of a division by zero. With a negative size
    fraction such a contour passes the size filter and reaches that step
    inside [findContours]. *)
Lemma zero_area_contour_is_not_skipped :
  (contourArea singlePoint == 0)%Q
  /\ (m00 (moments singlePoint) == 0)%Q
  /\ (getCentersAndBoundingBoxes [singlePoint]).1 = [mkCentroid NotFinite NotFinite]
  /\ filterOutBadContours (finder (-1) (1 # 2)) [squareA; singlePoint]
     = [squareA; singlePoint]
  /\ mkCentroid NotFinite NotFinite
       ∈ (findContours quickFind (finder (-1) (1 # 2)) [squareA; singlePoint]).1.2.
Proof.
  repeat split; try reflexivity.
  apply list_elem_of_In. vm_compute. by left.
Qed.

(** The size filter of C3 with the fraction 1/100: the single point is
    dropped, the square is kept. *)
Lemma zero_area_dropped_scenario :
  let this := finder (1 # 100) (1 # 2) in
  (0 <= contourSizeThreshold this)%Q
  /\ (singlePoint ∉ filterOutBadContours this [squareA; singlePoint])
  /\ filterOutBadContours this [squareA; singlePoint] = [squareA]
  /\ exists x y, massCenter squareA = mkCentroid (Finite x) (Finite y)
                 /\ (x == 105)%Q /\ (y == 105)%Q.
Proof.
  intros this.
  assert (Hf : (0 <= contourSizeThreshold this)%Q) by (vm_compute; discriminate).
  assert (Hfit : areasFit [squareA; singlePoint]).
  { intros c Hc. repeat (apply elem_of_cons in Hc as [->|Hc]); [reflexivity ..|].
    by apply elem_of_nil in Hc. }
  assert (Hprod : fitsInt (contourSizeThreshold this
                           * maxArea (contourArea <$> [squareA; singlePoint])) = true)
    by reflexivity.
  assert (Hm00 : forall c, (m00 (moments c) == contourArea c)%Q).
  { intros c. unfold moments, contourArea. simpl.
    unfold polygonMoments, polygonArea.
    destruct (green c) as [[a00 a10] a01]. simpl. reflexivity. }
  destruct (zero_area_dropped_by_filter_only this [squareA; singlePoint]
              Hf Hfit Hprod) as (Hdrop & _ & Hfinite & _).
  split; [exact Hf|]. split; [|split; [reflexivity|]].
  - apply Hdrop. reflexivity.
  - rewrite (Hfinite Hm00 squareA); [|by left].
    do 2 eexists. split; [reflexivity|]. split; reflexivity.
Defined.


(** The merge pass on three squares of side 10: the two that overlap are
    joined into one contour of eight points, the third is kept as it is,
    and the mass centers and boxes returned are those of the merged
    contours. *)
Example merge_scenario :
  findContours quickFind (finder (1 # 100) (1 # 2)) [squareA; squareC; squareB]
  = ([squareC; squareA ++ squareB],
     [massCenter squareC; massCenter (squareA ++ squareB)],
     [mkRect 300 300 11 11; mkRect 100 100 15 11]).
Proof. vm_compute. reflexivity. Qed.

(** *** Further scenarios *)

(** A tracker at (10, 10) and detections at (12, 11) and (400, 400): the
    first detection keeps the tracker, the second gets a new one. *)
Lemma two_detections_fill_pool :
  let m := tracker500 2 10 [trackerAt 10 10 5 0] in
  let mc := [pt 12 11; pt 400 400] in
  (2 <= length (kalmanTrackers (update diagonalSolver m mc []).1))%nat
  /\ kalmanTrackers (update diagonalSolver m mc []).1 <> [].
Proof.
  intros m mc. apply (pool_covers_detections diagonalSolver m [] mc).
  discriminate.
Defined.

(** A tracker at (10, 10) paired with a detection at (12, 11), two pixels
    away with a gate of 50: it is corrected with the detection. *)
Lemma near_pairing_scenario :
  let m := tracker500 2 10 [trackerAt 10 10 5 0] in
  let mc := [pt 12 11] in
  exists c,
    mc !! Z.to_nat 0 = Some c
    /\ kalmanTrackers (update diagonalSolver m mc []).1
         !! survivorRank m (afterOcclusion diagonalSolver m mc [])
                           (gs_assignment (gated diagonalSolver m mc)) 0
       = Some (gotUpdate (correct c (predict (trackerAt 10 10 5 0))))
    /\ getNumFramesWithoutUpdate
         (gotUpdate (correct c (predict (trackerAt 10 10 5 0)))) = 0.
Proof.
  intros m mc.
  apply (paired_tracker_is_corrected diagonalSolver m [] mc 0%nat 0
           (trackerAt 10 10 5 0));
    [discriminate | reflexivity | reflexivity | lia
    | vm_compute; discriminate | simpl; lia].
Defined.

(** Two trackers and one detection: the second tracker, at (200, 200)
    with three missed frames, is left unassigned outside the only
    bounding box. *)
Lemma unassigned_miss_scenario :
  let m := tracker500 2 10 [trackerAt 10 10 5 0; trackerAt 200 200 5 3] in
  let mc := [pt 12 11] in
  let rects := [mkRect 0 0 50 50] in
  let k := trackerAt 200 200 5 3 in
  let ks := afterOcclusion diagonalSolver m mc rects in
  let assignment := gs_assignment (gated diagonalSolver m mc) in
  ks !! 1%nat = Some (noUpdateThisFrame k)
  /\ getNumFramesWithoutUpdate (noUpdateThisFrame k)
     = getNumFramesWithoutUpdate k + 1
  /\ (getNumFramesWithoutUpdate k + 1 <= missedFramesThreshold m ->
      kalmanTrackers (update diagonalSolver m mc rects).1
        !! survivorRank m ks assignment 1
      = Some (correct_no_obs (predict (noUpdateThisFrame k))))
  /\ (missedFramesThreshold m < getNumFramesWithoutUpdate k + 1 ->
      survivorRank m ks assignment 2 = survivorRank m ks assignment 1).
Proof.
  intros m mc rects k.
  apply (unassigned_tracker_accrues_a_miss diagonalSolver m rects mc 1%nat k);
    [discriminate | reflexivity | reflexivity | reflexivity].
Defined.

(** The same pool, counters 0 and 3. *)
Lemma nonnegative_counters_scenario :
  let m := tracker500 2 10 [trackerAt 10 10 5 0; trackerAt 200 200 5 3] in
  Forall (fun k => 0 <= getNumFramesWithoutUpdate k)
         (kalmanTrackers (update diagonalSolver m [pt 12 11] [mkRect 0 0 50 50]).1).
Proof.
  intros m.
  apply (miss_counters_stay_nonnegative diagonalSolver m [mkRect 0 0 50 50] [pt 12 11]).
  constructor; [simpl; lia|]. constructor; [simpl; lia|]. constructor.
Defined.

(** Two squares of side 10 whose centers are 282 pixels apart, with a
    merge fraction of 1/2. *)
Lemma distant_squares_scenario :
  let contours := [squareA; squareC] in
  mergeContours quickFind (finder (1 # 2) (1 # 2)) contours
    (massCenter <$> contours) (approxBoundingRect <$> contours)
  ≡ₚ contours.
Proof.
  intros contours.
  apply (merge_without_close_pairs quickFind (finder (1 # 2) (1 # 2)) contours).
  intros i j Hi Hj Hne.
  destruct i as [|[|i]], j as [|[|j]]; simpl in Hi, Hj;
    solve [lia | done | vm_compute; reflexivity].
Defined.

(** Triangles of areas 5/2 and 5 and a single point, size fraction 1/2. *)
Lemma largest_triangle_scenario :
  triangle5 ∈ filterOutBadContours (finder (1 # 2) (1 # 2))
                [triangle52; triangle5; singlePoint].
Proof.
  apply (largest_contour_survives (finder (1 # 2) (1 # 2))
           [triangle52; triangle5; singlePoint] triangle5).
  - vm_compute. discriminate.
  - reflexivity.
  - right. left.
  - reflexivity.
  - intros c' Hc'.
    repeat (apply elem_of_cons in Hc' as [->|Hc']);
      [vm_compute; discriminate .. |].
    by apply elem_of_nil in Hc'.
Defined.

(** A press and a move: the rectangle is shown, and the drag is on. *)
Lemma rectangle_during_drag_scenario :
  isDragging (uiRun mouseStart
                [Mouse EVENT_LBUTTONDOWN 1 1; Mouse EVENT_MOUSEMOVE 5 7; FrameEnd])
  = true.
Proof.
  apply (rectangle_shown_only_while_dragging
           [Mouse EVENT_LBUTTONDOWN 1 1; Mouse EVENT_MOUSEMOVE 5 7; FrameEnd]).
  reflexivity.
Defined.

(** A drag from (10, 30) to (4, 50) across a frame end: the rectangle
    handed over has its corner at (4, 30), width 6 and height 20. *)
Lemma drag_selection_scenario :
  let st' := uiRun mouseStart
               (Mouse EVENT_LBUTTONDOWN 10 30
                  :: [Mouse EVENT_MOUSEMOVE 20 5; FrameEnd; Mouse EVENT_MOUSEMOVE 3 40]
                  ++ [Mouse EVENT_LBUTTONUP 4 50]) in
  isDragging st' = false
  /\ hasRectangle st' = false
  /\ triggerCallback st' = true
  /\ point1 st' = mkPoint 10 30
  /\ point2 st' = mkPoint 4 50
  /\ mo_suppressed (handleMouseCallbacks st') = Some (mkRect 4 30 6 20)
  /\ triggerCallback (mo_state (handleMouseCallbacks st')) = false.
Proof.
  apply (drag_gesture_selects_rectangle mouseStart 10 30 4 50
           [Mouse EVENT_MOUSEMOVE 20 5; FrameEnd; Mouse EVENT_MOUSEMOVE 3 40]);
    [reflexivity | repeat constructor].
Defined.





(** The same triangles and a single point: a second pass of the filter
    keeps what the first one kept. *)
Lemma second_pass_scenario :
  let this := finder (1 # 2) (1 # 2) in
  let contours := [triangle52; triangle5; singlePoint] in
  filterOutBadContours this (filterOutBadContours this contours)
  = filterOutBadContours this contours.
Proof.
  intros this contours. apply (filterOutBadContours_idempotent this contours).
  intros c Hc. repeat (apply elem_of_cons in Hc as [->|Hc]); [reflexivity ..|].
  by apply elem_of_nil in Hc.
Defined.

(** *** Beyond the range of [int] *)

(** An area beyond the range of [int] turns the accumulator of line 42
    into [INT_MIN] and the threshold negative: with the size fraction 1/2
    the contour of area zero is kept. *)
Example overflow_keeps_zero_area_contour :
  let this := finder (1 # 2) (1 # 2) in
  let contours := [squareA; singlePoint; bigSquare] in
  fitsInt (contourArea bigSquare) = false
  /\ maxArea (contourArea <$> contours) = inject_Z INT_MIN
  /\ threshold this contours = -1073741824
  /\ filterOutBadContours this contours = contours.
Proof. repeat split; vm_compute; reflexivity. Qed.

(** With such an area a second pass of the size filter can remove a
    contour the first pass kept. *)
Example overflow_second_pass_differs :
  let this := finder (- (1 # 2)) (1 # 2) in
  let contours := [unitTriangle; bigSquare; singlePoint] in
  filterOutBadContours this contours = [unitTriangle; bigSquare]
  /\ filterOutBadContours this (filterOutBadContours this contours) = [bigSquare].
Proof. split; vm_compute; reflexivity. Qed.

(** A corner whose coordinate sum is beyond the range of [int] is stored
    with the sum [INT_MIN] and comes out first. *)
Example overflow_misplaces_corner :
  storedSum (pt 2000000000 2000000000) = INT_MIN
  /\ orderPoints [pt 0 0; pt 2000000000 2000000000; pt 1 0; pt 0 1]
     = [pt 2000000000 2000000000; pt 1 0; pt 1 0; pt 0 1].
Proof. split; vm_compute; reflexivity. Qed.

(** A visible tracker whose prediction is (25/2, 23/2): the point put
    out is (12, 12). *)
Example emitted_point_is_rounded :
  let k := mkKalmanTracker (mkStaticFilter (mkPoint2f (25 # 2) (23 # 2)) 5)
                           1 (1 # 2) 0 in
  (update diagonalSolver (tracker500 2 10 [k]) [] []).2 = [mkPoint 12 12].
Proof. vm_compute. reflexivity. Qed.
